(** * DQN training loop ([dqn/train.py]): a shallow embedding

    The development follows [dqn/train.py]: the temporal-difference target
    of the learning update (vanilla and double Q-learning), the schedule of
    the exploration rate and of the bias-correction exponent, the hard
    synchronisation of the target network, and the episode / step control
    flow of [main] together with [eval_model].

    Numbers.  Python [int]s are [Z].  Python / torch floating-point values
    are modelled by exact rationals [Q]: every statement below about
    [epsilon], [beta] and the TD target is a statement in exact arithmetic.

    Collaborators.  [networks], [replay_buffers], [plot] and the gym
    environment are imported by [train.py] and are not part of it; they are
    taken as the fields of the record [collaborators]. *)

From Stdlib Require Import ZArith QArith List Lia Lqa Bool.
From Stdlib Require Import Floats.SpecFloat.
Import ListNotations.

Set Implicit Arguments.

(** ** Python exceptions and the error monad *)

Inductive exn : Type :=
| ZeroDivisionError   (* [x % 0], [x / 0] *)
| RuntimeError.       (* torch: reduction over an empty dimension, index out of range *)

Definition M (A : Type) : Type := (exn + A)%type.

Definition ret {A : Type} (a : A) : M A := inr a.
Definition raise {A : Type} (e : exn) : M A := inl e.
Definition bind {A B : Type} (c : M A) (k : A -> M B) : M B :=
  match c with
  | inl e => inl e
  | inr a => k a
  end.

Declare Scope monad_scope.
Delimit Scope monad_scope with monad.
Notation "x <- c ;; k" := (bind c (fun x => k))
  (at level 61, c at next level, right associativity) : monad_scope.
Notation "' p <- c ;; k" := (bind c (fun x => let p := x in k))
  (at level 61, p pattern, c at next level, right associativity) : monad_scope.
Open Scope monad_scope.

Fixpoint mapM {A B : Type} (f : A -> M B) (l : list A) : M (list B) :=
  match l with
  | [] => ret []
  | a :: t => b <- f a ;; bs <- mapM f t ;; ret (b :: bs)
  end.

(** ** Python arithmetic *)

(** [a % b] on Python ints: floor remainder (sign of the divisor, which is
    what [Z.modulo] computes), [ZeroDivisionError] for [b = 0]. *)
Definition py_mod (a b : Z) : M Z :=
  if (b =? 0)%Z then raise ZeroDivisionError else ret (a mod b)%Z.

(** [a / b] on floats: [ZeroDivisionError] for a zero divisor. *)
Definition py_div (a b : Q) : M Q :=
  if Qeq_bool b 0 then raise ZeroDivisionError else ret (a / b)%Q.

(** [x < y] on numbers. *)
Definition Qltb (x y : Q) : bool := negb (Qle_bool y x).

(** The builtin [max(a, b)]: the first argument unless the second one is
    strictly greater. *)
Definition py_max (a b : Q) : Q := if Qltb a b then b else a.

(** ** Tensors of the learning update

    A [(B, A)] tensor of action values is a list of rows; a [(B, 1)] column
    is a list with one entry per sample. *)

Definition observation : Type := list Q.
Definition action : Type := Z.

(** [torch.max(row)] along the action dimension: the largest value and the
    index of its first occurrence. *)
Fixpoint torch_max_from (best : Q) (besti : nat) (i : nat) (l : list Q)
  : Q * nat :=
  match l with
  | [] => (best, besti)
  | x :: t =>
      if Qltb best x then torch_max_from x i (S i) t
      else torch_max_from best besti (S i) t
  end.

Definition torch_max (row : list Q) : M (Q * nat) :=
  match row with
  | [] => raise RuntimeError
  | x :: t => ret (torch_max_from x 0 1 t)
  end.

(** [torch.gather(row, index)] for one row and one index. *)
Definition torch_gather (row : list Q) (i : nat) : M Q :=
  match nth_error row i with
  | Some v => ret v
  | None => raise RuntimeError
  end.

(** One sample of the batch returned by [exp_replay.sample_experience]:
    the rows of [batch_s], [batch_ns], [batch_a], [batch_r], [batch_d],
    [batch_idx] and [batch_isw]. *)
Record sample : Type := mkSample {
  b_s : observation;
  b_ns : observation;
  b_a : action;
  b_r : Q;
  b_d : Q;
  b_idx : Z;
  b_isw : Q
}.

Definition batch : Type := list sample.

(** ** The TD target (lines 134-146 of [main])

    [online] and [target] are the [forward] functions of the two networks. *)

Section TDTarget.

Variable DDQN : bool.
Variable GAMMA : Q.
Variables online target : observation -> list Q.

(** The bootstrap value [q_ns] of one sample. *)
Definition q_ns_of (ns : observation) : M Q :=
  if DDQN then
    (* Action maximization using online qvalue of next states *)
    let online_q_ns := online ns in
    mx <- torch_max online_q_ns ;;
    let max_a_ns := snd mx in
    (* Compute q-target using online max action *)
    let targ_q_ns := target ns in
    torch_gather targ_q_ns max_a_ns
  else
    (* Compute q-target using target max action *)
    let targ_q_ns := target ns in
    mx <- torch_max targ_q_ns ;;
    ret (fst mx).

(** [q_targ = torch.add(batch_r, GAMMA * (1 - batch_d) * q_ns)], one row. *)
Definition q_targ_of (x : sample) : M Q :=
  q_ns <- q_ns_of (b_ns x) ;;
  ret (b_r x + GAMMA * (1 - b_d x) * q_ns)%Q.

Definition q_targ (b : batch) : M (list Q) := mapM q_targ_of b.

End TDTarget.

(** Elementwise [nn.MSELoss(reduction="none")] between the predicted value
    of the taken action, [q_pred.gather(dim=1, index=batch_a)], and the
    target. *)
Definition gather_action (row : list Q) (a : action) : M Q :=
  if (a <? 0)%Z then raise RuntimeError else torch_gather row (Z.to_nat a).

Fixpoint td_loss (q_pred : list (list Q)) (b : batch) (targ : list Q)
  : M (list Q) :=
  match q_pred, b, targ with
  | [], [], [] => ret []
  | row :: q_pred', x :: b', y :: targ' =>
      p <- gather_action row (b_a x) ;;
      ls <- td_loss q_pred' b' targ' ;;
      ret (((p - y) * (p - y))%Q :: ls)
  | _, _, _ => raise RuntimeError
  end.

(** ** Hyperparameters ([args] of [main])

    [RUN_NAME] and [USE_GPU] name the output directory and the device;
    the loop does not read them. *)

Record hparams : Type := mkHparams {
  SEED : Z;
  DDQN : bool;
  DUELING : bool;
  PER : bool;
  PER_ALPHA : Q;
  PER_BETA : Q;
  PLOT_INTERVAL : Z;
  TOTAL_TIMESTEPS : Z;
  N_STEPS : Z;
  UPDATE_STEPS : Z;
  UPDATE_TARGET : Z;
  BATCH_SIZE : Z;
  BUFFER_SIZE : Z;
  GAMMA : Q;
  INIT_LR : Q;
  IS_LR_DECAY : bool;
  LR_DECAY : Q;
  INIT_EPS : Q;
  FIN_EPS : Q;
  EXPLORE : Z
}.

(** ** Collaborators

    What [train.py] imports and calls: the random sources, the gym
    environment, the network classes of [networks] and the buffers of
    [replay_buffers].  Each mutable object is a value of an abstract type
    and each method a function returning the updated object. *)

(** The 5-tuple returned by [env.step] (without [info]). *)
Record step_result : Type := mkStepResult {
  next_s : observation;
  rew : Q;
  done : bool;
  trunc : bool
}.

Record collaborators : Type := mkCollaborators {
  env_t : Type;
  rng_t : Type;
  params_t : Type;
  optim_t : Type;
  buffer_t : Type;
  (* random.seed, torch.manual_seed, np.random.seed *)
  seed_all : Z -> rng_t;
  np_randint : rng_t -> Z -> Z -> Z * rng_t;
  (* gym *)
  gym_make : env_t;
  n_states_of : env_t -> Z;
  n_actions_of : env_t -> Z;
  env_reset : env_t -> Z -> env_t * observation;
  env_step : env_t -> action -> env_t * step_result;
  (* networks.DQN / networks.DuelingDQN *)
  new_net : bool -> Z -> Z -> Q -> rng_t -> (params_t * optim_t) * rng_t;
  forward : params_t -> observation -> list Q;
  sample_discrete_action :
    params_t -> rng_t -> observation -> Q -> Z -> action * rng_t;
  (* optimizer.zero_grad(); loss.backward(); optimizer.step() on the mean
     of the (importance-weighted, when the flag is set) TD loss *)
  optimizer_step :
    params_t -> optim_t -> batch -> list Q -> bool -> params_t * optim_t;
  set_lr : optim_t -> Q -> optim_t;
  (* replay_buffers.ExperienceReplay / PrioritizedExperienceReplay *)
  new_replay : bool -> Z -> Z -> Q -> Q -> buffer_t;
  counter : buffer_t -> Z;
  insert :
    buffer_t -> observation -> observation -> action -> Q -> bool -> buffer_t;
  sample_experience : buffer_t -> Q -> rng_t -> Z -> batch * rng_t;
  update_priorities : buffer_t -> list Z -> list Q -> buffer_t
}.

(** A network object: its parameters ([state_dict()]) and its optimizer. *)
Record qnet (C : collaborators) : Type := mkQnet {
  state_dict : params_t C;
  optimizer : optim_t C
}.

(** [dst.load_state_dict(src.state_dict())]: the values of all parameters
    of [src] are copied into [dst]; the two objects stay distinct. *)
Definition load_state_dict {C : collaborators} (dst src : qnet C) : qnet C :=
  mkQnet C (state_dict src) (optimizer dst).

(** Calls made on the [env] object, most recent first. *)
Inductive env_call : Type :=
| CallReset (seed : Z)
| CallStep (a : action).

(** Every [reset] of the log was called with the seed [z]. *)
Definition resets_use (z : Z) (log : list env_call) : Prop :=
  Forall (fun c => match c with
                   | CallReset z' => z' = z
                   | CallStep _ => True
                   end) log.

(** [accum] of [main]. *)
Record accum_t : Type := mkAccum {
  acc_rew : list Q;
  acc_eval_rew : list Q;
  acc_steps : list Z
}.

(** The mutable state of [main]: its local variables and the objects they
    name.  [beta] is the attribute [exp_replay.beta]; [env_calls] logs the
    calls made on [env]. *)
Record train_state (C : collaborators) : Type := mkState {
  env : env_t C;
  rng : rng_t C;
  online_qnet : qnet C;
  target_qnet : qnet C;
  exp_replay : buffer_t C;
  beta : Q;
  epsilon : Q;
  lr : Q;
  epoch_counter : Z;
  step_counter : Z;
  lstep_counter : Z;
  s : observation;
  eps_rew : Q;
  accum : accum_t;
  env_calls : list env_call
}.

Arguments mkState {C}.
Arguments mkQnet {C}.

(** ** The training loop of [main] *)

Section Training.

Variable C : collaborators.
Variable hp : hparams.

Local Abbreviation state := (train_state C).

(** Lines 63-67: the seeded random source and the one environment seed. *)
Definition rng0 : rng_t C := seed_all C (SEED hp).
Definition env_seed : Z := fst (np_randint C rng0 0 100).
Definition rng1 : rng_t C := snd (np_randint C rng0 0 100).

(** Lines 80-82. *)
Definition n_states : Z := n_states_of C (gym_make C).
Definition n_actions : Z := n_actions_of C (gym_make C).

(** Lines 69-107: the state on entry to the [while] loop.  The target
    network is a [copy.deepcopy] of the online one; [s] is not bound yet. *)
Definition init_state : state :=
  let '(po, g) :=
    new_net C (DUELING hp) n_states n_actions (INIT_LR hp) rng1 in
  let online := mkQnet (fst po) (snd po) in
  let target := load_state_dict online online in
  {| env := gym_make C;
     rng := g;
     online_qnet := online;
     target_qnet := target;
     exp_replay :=
       new_replay C (PER hp) (BUFFER_SIZE hp) n_states (PER_ALPHA hp)
         (PER_BETA hp);
     beta := PER_BETA hp;
     epsilon := INIT_EPS hp;
     lr := INIT_LR hp;
     epoch_counter := 0;
     step_counter := 0;
     lstep_counter := 0;
     s := [];
     eps_rew := 0;
     accum := mkAccum [] [] [];
     env_calls := [] |}.

(** *** [eval_model] (lines 24-33) *)

Fixpoint eval_loop (model : qnet C) (n : nat) (e : env_t C) (g : rng_t C)
  (log : list env_call) (s0 : observation) (ret0 : Q)
  : Q * env_t C * rng_t C * list env_call :=
  match n with
  | O => (ret0, e, g, log)
  | S n' =>
      let '(a, g1) :=
        sample_discrete_action C (state_dict model) g s0 (-1) n_actions in
      let '(e1, r) := env_step C e a in
      let ret1 := (ret0 + rew r)%Q in
      if done r then (ret1, e1, g1, CallStep a :: log)
      else eval_loop model n' e1 g1 (CallStep a :: log) (next_s r) ret1
  end.

Definition eval_model (model : qnet C) (e : env_t C) (g : rng_t C)
  (log : list env_call) (max_steps : Z) (seed : Z)
  : Q * env_t C * rng_t C * list env_call :=
  let '(e0, s0) := env_reset C e seed in
  eval_loop model (Z.to_nat max_steps) e0 g (CallReset seed :: log) s0 0.

(** *** One iteration of [for i in range(N_STEPS)] (lines 116-168) *)

(** Lines 116-121: count the step, choose the action, call [env.step]. *)
Definition interact (st : state) : state * action * step_result :=
  let n := (step_counter st + 1)%Z in
  let '(a, g) :=
    sample_discrete_action C (state_dict (online_qnet st)) (rng st) (s st)
      (epsilon st) n_actions in
  let '(e1, r) := env_step C (env st) a in
  ({| env := e1;
      rng := g;
      online_qnet := online_qnet st;
      target_qnet := target_qnet st;
      exp_replay := exp_replay st;
      beta := beta st;
      epsilon := epsilon st;
      lr := lr st;
      epoch_counter := epoch_counter st;
      step_counter := n;
      lstep_counter := lstep_counter st;
      s := s st;
      eps_rew := eps_rew st;
      accum := accum st;
      env_calls := CallStep a :: env_calls st |}, a, r).

(** Lines 122-123: [exp_replay.insert(s, next_s, a, rew, done)] and the
    episode return. *)
Definition record_transition (st : state) (a : action) (r : step_result)
  : state :=
  {| env := env st;
     rng := rng st;
     online_qnet := online_qnet st;
     target_qnet := target_qnet st;
     exp_replay := insert C (exp_replay st) (s st) (next_s r) a (rew r) (done r);
     beta := beta st;
     epsilon := epsilon st;
     lr := lr st;
     epoch_counter := epoch_counter st;
     step_counter := step_counter st;
     lstep_counter := lstep_counter st;
     s := s st;
     eps_rew := (eps_rew st + rew r)%Q;
     accum := accum st;
     env_calls := env_calls st |}.

(** Line 125: the gate of the learning update; [and] is short-circuit. *)
Definition learn_due (st : state) : M bool :=
  if (BATCH_SIZE hp <? counter C (exp_replay st))%Z then
    m <- py_mod (step_counter st) (UPDATE_STEPS hp) ;;
    ret (m =? 0)%Z
  else ret false.

(** Line 126: [lstep_counter += 1]. *)
Definition count_update (st : state) : state :=
  {| env := env st;
     rng := rng st;
     online_qnet := online_qnet st;
     target_qnet := target_qnet st;
     exp_replay := exp_replay st;
     beta := beta st;
     epsilon := epsilon st;
     lr := lr st;
     epoch_counter := epoch_counter st;
     step_counter := step_counter st;
     lstep_counter := (lstep_counter st + 1)%Z;
     s := s st;
     eps_rew := eps_rew st;
     accum := accum st;
     env_calls := env_calls st |}.

(** Line 129: [target_qnet.load_state_dict(online_qnet.state_dict())]. *)
Definition sync_target (st : state) : state :=
  {| env := env st;
     rng := rng st;
     online_qnet := online_qnet st;
     target_qnet := load_state_dict (target_qnet st) (online_qnet st);
     exp_replay := exp_replay st;
     beta := beta st;
     epsilon := epsilon st;
     lr := lr st;
     epoch_counter := epoch_counter st;
     step_counter := step_counter st;
     lstep_counter := lstep_counter st;
     s := s st;
     eps_rew := eps_rew st;
     accum := accum st;
     env_calls := env_calls st |}.

(** Line 128: is the target network due for a sync at this update? *)
Definition sync_due (st : state) : M bool :=
  m <- py_mod (lstep_counter st) (UPDATE_TARGET hp) ;;
  ret (m =? 0)%Z.

(** Lines 131-158: sample a batch, compute the TD target and the loss,
    feed priorities back (PER) and take one gradient step on the online
    network. *)
Definition gradient_update (st : state) : M state :=
  let '(b, g) :=
    sample_experience C (exp_replay st) (beta st) (rng st) (BATCH_SIZE hp) in
  let online := forward C (state_dict (online_qnet st)) in
  let target := forward C (state_dict (target_qnet st)) in
  let q_pred := map (fun x => online (b_s x)) b in
  targ <- q_targ (DDQN hp) (GAMMA hp) online target b ;;
  loss <- td_loss q_pred b targ ;;
  let replay' :=
    if PER hp then update_priorities C (exp_replay st) (map b_idx b) loss
    else exp_replay st in
  let '(p, o) :=
    optimizer_step C (state_dict (online_qnet st))
      (optimizer (online_qnet st)) b targ (PER hp) in
  ret {| env := env st;
         rng := g;
         online_qnet := mkQnet p o;
         target_qnet := target_qnet st;
         exp_replay := replay';
         beta := beta st;
         epsilon := epsilon st;
         lr := lr st;
         epoch_counter := epoch_counter st;
         step_counter := step_counter st;
         lstep_counter := lstep_counter st;
         s := s st;
         eps_rew := eps_rew st;
         accum := accum st;
         env_calls := env_calls st |}.

(** Lines 126-158: one learning update. *)
Definition learn (st : state) : M state :=
  let st1 := count_update st in
  due <- sync_due st1 ;;
  gradient_update (if due then sync_target st1 else st1).

(** The decrement of line 161, as a number. *)
Definition eps_step : Q :=
  ((INIT_EPS hp - FIN_EPS hp) / inject_Z (EXPLORE hp))%Q.

(** Line 161: the linear decay of the exploration rate. *)
Definition eps_decay (eps : Q) : M Q :=
  d <- py_div (INIT_EPS hp - FIN_EPS hp)%Q (inject_Z (EXPLORE hp)) ;;
  ret (py_max (FIN_EPS hp) (eps - d)%Q).

(** Lines 163-165: the anneal of the bias-correction exponent (PER). *)
Definition beta_anneal (step : Z) (b : Q) : M Q :=
  if PER hp then
    fraction <- py_div (inject_Z step) (inject_Z (TOTAL_TIMESTEPS hp)) ;;
    ret (b + fraction * (1 - b))%Q
  else ret b.

(** Lines 160-165. *)
Definition decay (st : state) : M state :=
  eps <- eps_decay (epsilon st) ;;
  b <- beta_anneal (step_counter st) (beta st) ;;
  ret {| env := env st;
         rng := rng st;
         online_qnet := online_qnet st;
         target_qnet := target_qnet st;
         exp_replay := exp_replay st;
         beta := b;
         epsilon := eps;
         lr := lr st;
         epoch_counter := epoch_counter st;
         step_counter := step_counter st;
         lstep_counter := lstep_counter st;
         s := s st;
         eps_rew := eps_rew st;
         accum := accum st;
         env_calls := env_calls st |}.

(** Line 167: [s = next_s]. *)
Definition advance (st : state) (r : step_result) : state :=
  {| env := env st;
     rng := rng st;
     online_qnet := online_qnet st;
     target_qnet := target_qnet st;
     exp_replay := exp_replay st;
     beta := beta st;
     epsilon := epsilon st;
     lr := lr st;
     epoch_counter := epoch_counter st;
     step_counter := step_counter st;
     lstep_counter := lstep_counter st;
     s := next_s r;
     eps_rew := eps_rew st;
     accum := accum st;
     env_calls := env_calls st |}.

(** Lines 122-168: what the loop body does with the result [r] of
    [env.step(a)].  The boolean is [true] when the body ends in [break]. *)
Definition after_env_step (st : state) (a : action) (r : step_result)
  : M (state * bool) :=
  let st1 := record_transition st a r in
  due <- learn_due st1 ;;
  st2 <- (if due then learn st1 else ret st1) ;;
  st3 <- decay st2 ;;
  ret (advance st3 r, done r).

(** The whole body, lines 116-168. *)
Definition loop_body (st : state) : M (state * bool) :=
  let '(st0, a, r) := interact st in
  after_env_step st0 a r.

(** The state at line 125, after the transition has been stored. *)
Definition stored (st : state) : state :=
  let '(st0, a, r) := interact st in
  record_transition st0 a r.

(** Does the iteration that starts in [st] take a learning update, and
    does that update synchronise the target network? *)
Definition learns (st : state) : bool :=
  match learn_due (stored st) with
  | inr due => due
  | inl _ => false
  end.

Definition syncs (st : state) : bool :=
  learns st && ((lstep_counter st + 1) mod UPDATE_TARGET hp =? 0)%Z.

(** [for i in range(N_STEPS): ...; if done: break] with [n] iterations
    left. *)
Fixpoint for_steps (n : nat) (st : state) : M state :=
  match n with
  | O => ret st
  | S k =>
      '(st', brk) <- loop_body st ;;
      if brk then ret st' else for_steps k st'
  end.

(** *** One iteration of [while step_counter < TOTAL_TIMESTEPS] *)

(** Lines 110-113. *)
Definition begin_episode (st : state) : state :=
  let '(e, s0) := env_reset C (env st) env_seed in
  {| env := e;
     rng := rng st;
     online_qnet := online_qnet st;
     target_qnet := target_qnet st;
     exp_replay := exp_replay st;
     beta := beta st;
     epsilon := epsilon st;
     lr := lr st;
     epoch_counter := (epoch_counter st + 1)%Z;
     step_counter := step_counter st;
     lstep_counter := lstep_counter st;
     s := s0;
     eps_rew := 0;
     accum := accum st;
     env_calls := CallReset env_seed :: env_calls st |}.

(** Lines 170-174: learning-rate decay, once per episode. *)
Definition lr_decay (st : state) : M state :=
  if IS_LR_DECAY hp then
    l <- py_div (lr st) (1 + LR_DECAY hp * inject_Z (epoch_counter st))%Q ;;
    ret {| env := env st;
           rng := rng st;
           online_qnet :=
             mkQnet (state_dict (online_qnet st))
               (set_lr C (optimizer (online_qnet st)) l);
           target_qnet := target_qnet st;
           exp_replay := exp_replay st;
           beta := beta st;
           epsilon := epsilon st;
           lr := l;
           epoch_counter := epoch_counter st;
           step_counter := step_counter st;
           lstep_counter := lstep_counter st;
           s := s st;
           eps_rew := eps_rew st;
           accum := accum st;
           env_calls := env_calls st |}
  else ret st.

(** Lines 177-178. *)
Definition accumulate (st : state) : state :=
  {| env := env st;
     rng := rng st;
     online_qnet := online_qnet st;
     target_qnet := target_qnet st;
     exp_replay := exp_replay st;
     beta := beta st;
     epsilon := epsilon st;
     lr := lr st;
     epoch_counter := epoch_counter st;
     step_counter := step_counter st;
     lstep_counter := lstep_counter st;
     s := s st;
     eps_rew := eps_rew st;
     accum :=
       mkAccum (acc_rew (accum st) ++ [eps_rew st])
         (acc_eval_rew (accum st))
         (acc_steps (accum st) ++ [step_counter st]);
     env_calls := env_calls st |}.

(** Lines 181-182: the greedy evaluation episode and its record.  The
    prints and [plot_rewards] that follow only read the state. *)
Definition evaluate (st : state) : state :=
  let '(eval_rew, e, g, log) :=
    eval_model (online_qnet st) (env st) (rng st) (env_calls st)
      (N_STEPS hp) env_seed in
  {| env := e;
     rng := g;
     online_qnet := online_qnet st;
     target_qnet := target_qnet st;
     exp_replay := exp_replay st;
     beta := beta st;
     epsilon := epsilon st;
     lr := lr st;
     epoch_counter := epoch_counter st;
     step_counter := step_counter st;
     lstep_counter := lstep_counter st;
     s := s st;
     eps_rew := eps_rew st;
     accum :=
       mkAccum (acc_rew (accum st))
         (acc_eval_rew (accum st) ++ [eval_rew])
         (acc_steps (accum st));
     env_calls := log |}.

(** Line 179. *)
Definition eval_due (st : state) : M bool :=
  m <- py_mod (epoch_counter st) (PLOT_INTERVAL hp) ;;
  ret (m =? 0)%Z.

(** Lines 170-194. *)
Definition end_episode (st : state) : M state :=
  st1 <- lr_decay st ;;
  let st2 := accumulate st1 in
  due <- eval_due st2 ;;
  ret (if due then evaluate st2 else st2).

(** Lines 110-194: the body of the [while] loop. *)
Definition episode (st : state) : M state :=
  st1 <- for_steps (Z.to_nat (N_STEPS hp)) (begin_episode st) ;;
  end_episode st1.

(** Line 109.  [None]: the loop is still running when the fuel is spent. *)
Fixpoint main_loop (fuel : nat) (st : state) : option (M state) :=
  if (step_counter st <? TOTAL_TIMESTEPS hp)%Z then
    match fuel with
    | O => None
    | S f =>
        match episode st with
        | inl e => Some (inl e)
        | inr st' => main_loop f st'
        end
    end
  else Some (inr st).

Definition main (fuel : nat) : option (M state) := main_loop fuel init_state.

(** *** The control flow as a step relation

    [reach ph st]: [main] can be in state [st] at control point [ph];
    [Outside] is the head of the [while] loop, [Inside n] the head of the
    [for] loop with [n] iterations left, [Leaving] the code that follows
    the [for] loop. *)

Inductive phase : Type :=
| Outside
| Inside (n : nat)
| Leaving.

Definition after_body (n : nat) (brk : bool) : phase :=
  if brk then Leaving else match n with O => Leaving | S _ => Inside n end.

Definition enter_for (n : nat) : phase :=
  match n with O => Leaving | S _ => Inside n end.

Inductive reach : phase -> state -> Prop :=
| reach_init : reach Outside init_state
| reach_begin st :
    reach Outside st ->
    (step_counter st < TOTAL_TIMESTEPS hp)%Z ->
    reach (enter_for (Z.to_nat (N_STEPS hp))) (begin_episode st)
| reach_body n st st' brk :
    reach (Inside (S n)) st ->
    loop_body st = inr (st', brk) ->
    reach (after_body n brk) st'
| reach_end st st' :
    reach Leaving st ->
    end_episode st = inr st' ->
    reach Outside st'.

(** A stretch of the run in which no learning update synchronises the
    target network. *)
Inductive no_sync_run : state -> state -> Prop :=
| nsr_here st : no_sync_run st st
| nsr_begin st st2 :
    no_sync_run (begin_episode st) st2 -> no_sync_run st st2
| nsr_body st st' brk st2 :
    loop_body st = inr (st', brk) ->
    syncs st = false ->
    no_sync_run st' st2 -> no_sync_run st st2
| nsr_end st st' st2 :
    end_episode st = inr st' ->
    no_sync_run st' st2 -> no_sync_run st st2.

End Training.

(** The call of line 131 in the iteration that starts in [st]: the batch
    drawn from the buffer as it is after the insertion, and the random
    source after the draw. *)
Definition drawn {C : collaborators} (hp : hparams) (st : train_state C)
  : batch * rng_t C :=
  sample_experience C (exp_replay (stored st)) (beta st) (rng (stored st))
    (BATCH_SIZE hp).

Arguments reach_init {C hp}.
Arguments reach_begin {C hp st}.
Arguments reach_body {C hp n st st' brk}.
Arguments reach_end {C hp st st'}.

(** ** The TD target as the specification words it

    [max_a target.forward(next_state)[a]] and
    [a* = argmax_a online.forward(next_state)[a]], as relations. *)

Definition is_max (row : list Q) (v : Q) : Prop :=
  In v row /\ forall x, In x row -> (x <= v)%Q.

Definition is_argmax (row : list Q) (i : nat) : Prop :=
  exists v, nth_error row i = Some v /\ forall x, In x row -> (x <= v)%Q.

Definition td_target_spec (ddqn : bool) (gamma : Q)
  (online target : observation -> list Q) (x : sample) (y : Q) : Prop :=
  if ddqn then
    exists a q,
      is_argmax (online (b_ns x)) a /\
      nth_error (target (b_ns x)) a = Some q /\
      y = (b_r x + gamma * (1 - b_d x) * q)%Q
  else
    exists q,
      is_max (target (b_ns x)) q /\
      y = (b_r x + gamma * (1 - b_d x) * q)%Q.

(** The arg-max action of a row, as [torch.max] reports it. *)
Definition argmax_of (row : list Q) : option nat :=
  match torch_max row with
  | inr mx => Some (snd mx)
  | inl _ => None
  end.

(** Two networks that rank the actions differently, and a batch of one
    non-terminal and one of one terminal transition. *)
Definition disagreeing_online : observation -> list Q := fun _ => [1%Q; 0%Q].
Definition disagreeing_target : observation -> list Q := fun _ => [0%Q; 1%Q].
Definition disagreeing_batch : batch :=
  [ {| b_s := [0%Q]; b_ns := [0%Q]; b_a := 0%Z; b_r := 0; b_d := 0;
       b_idx := 0%Z; b_isw := 1 |} ].
Definition terminal_batch : batch :=
  [ {| b_s := [0%Q]; b_ns := [0%Q]; b_a := 1%Z; b_r := 5 # 2; b_d := 1;
       b_idx := 0%Z; b_isw := 1 |} ].

(** ** The TD target on single-precision tensors

    The loop above carries action values as exact rationals.  The tensors
    of lines 133-146 hold IEEE binary32 numbers, which include infinities
    and NaN; this module is the same code on such values ([spec_float] at
    precision 24), with the [requires_grad] flag of each tensor: the
    output of an operation requires a gradient when gradient mode is on
    and one of its inputs does, and [with torch.no_grad()] turns the mode
    off. *)

Module Float32.

Definition f32 : Type := spec_float.

Definition prec : Z := 24.
Definition emax : Z := 128.

Definition add : f32 -> f32 -> f32 := SFadd prec emax.
Definition sub : f32 -> f32 -> f32 := SFsub prec emax.
Definition mul : f32 -> f32 -> f32 := SFmul prec emax.
Definition leb : f32 -> f32 -> bool := SFleb.
Definition eqb : f32 -> f32 -> bool := SFeqb.
Definition one : f32 := SFone prec emax.

Definition is_nan (x : f32) : bool :=
  match x with
  | S754_nan => true
  | _ => false
  end.

Definition is_finite (x : f32) : bool :=
  match x with
  | S754_zero _ | S754_finite _ _ _ => true
  | _ => false
  end.

Record tensor (A : Type) : Type := mkTensor {
  data : A;
  requires_grad : bool
}.

Arguments mkTensor {A}.
Arguments data {A}.
Arguments requires_grad {A}.

(** A Python number, or a tensor built from the data of the buffer. *)
Definition lift (c : f32) : tensor f32 := mkTensor c false.

(** An elementwise operation under gradient mode [grad]. *)
Definition pointwise (op : f32 -> f32 -> f32) (grad : bool)
  (a b : tensor f32) : tensor f32 :=
  mkTensor (op (data a) (data b))
    (grad && (requires_grad a || requires_grad b)).

(** [net.forward(x)]: the parameters require gradients, so the output
    does exactly when gradient mode is on. *)
Definition forward (grad : bool) (net : list f32 -> list f32)
  (x : list f32) : tensor (list f32) :=
  mkTensor (net x) grad.

(** [torch.max] along the action dimension: a later entry replaces the
    running maximum unless it is less than or equal to it; a NaN stops the
    scan and is the result. *)
Fixpoint max_from (best : f32) (besti : nat) (i : nat) (l : list f32)
  : f32 * nat :=
  match l with
  | [] => (best, besti)
  | x :: t =>
      if leb x best then max_from best besti (S i) t
      else if is_nan x then (x, i)
      else max_from x i (S i) t
  end.

Definition torch_max (grad : bool) (row : tensor (list f32))
  : M (tensor f32 * nat) :=
  match data row with
  | [] => raise RuntimeError
  | x :: t =>
      let '(v, i) := if is_nan x then (x, O) else max_from x 0 1 t in
      ret (mkTensor v (grad && requires_grad row), i)
  end.

Definition torch_gather (grad : bool) (row : tensor (list f32)) (i : nat)
  : M (tensor f32) :=
  match nth_error (data row) i with
  | Some v => ret (mkTensor v (grad && requires_grad row))
  | None => raise RuntimeError
  end.

(** One sample of the batch, as in [sample]. *)
Record sample32 : Type := mkSample32 {
  b32_s : list f32;
  b32_ns : list f32;
  b32_a : Z;
  b32_r : f32;
  b32_d : f32;
  b32_idx : Z;
  b32_isw : f32
}.

Section Target.

Variable DDQN : bool.
Variable GAMMA : f32.
Variables online target : list f32 -> list f32.

(** Line 133, outside the [no_grad] block. *)
Definition q_pred (b : list sample32) : list (tensor (list f32)) :=
  map (fun x => forward true online (b32_s x)) b.

(** Lines 135-145 under gradient mode [grad]. *)
Definition q_ns_of (grad : bool) (ns : list f32) : M (tensor f32) :=
  if DDQN then
    let online_q_ns := forward grad online ns in
    mx <- torch_max grad online_q_ns ;;
    let max_a_ns := snd mx in
    let targ_q_ns := forward grad target ns in
    torch_gather grad targ_q_ns max_a_ns
  else
    let targ_q_ns := forward grad target ns in
    mx <- torch_max grad targ_q_ns ;;
    ret (fst mx).

(** Lines 134-146 for one sample: [with torch.no_grad()] and
    [torch.add(batch_r, GAMMA * (1 - batch_d) * q_ns)]. *)
Definition q_targ_of (x : sample32) : M (tensor f32) :=
  let grad := false in
  q_ns <- q_ns_of grad (b32_ns x) ;;
  ret (pointwise add grad (lift (b32_r x))
         (pointwise mul grad
            (pointwise mul grad (lift GAMMA)
               (pointwise sub grad (lift one) (lift (b32_d x))))
            q_ns)).

Definition q_targ (b : list sample32) : M (list (tensor f32)) :=
  mapM q_targ_of b.

End Target.

(** The maximum and the arg-max of a row, as the specification words
    them, on binary32 values. *)
Definition is_max (row : list f32) (v : f32) : Prop :=
  In v row /\ forall x, In x row -> leb x v = true.

Definition is_argmax (row : list f32) (i : nat) : Prop :=
  exists v, nth_error row i = Some v /\ forall x, In x row -> leb x v = true.

Definition td_target_spec (ddqn : bool) (gamma : f32)
  (online target : list f32 -> list f32) (x : sample32) (y : f32) : Prop :=
  if ddqn then
    exists a q,
      is_argmax (online (b32_ns x)) a /\
      nth_error (target (b32_ns x)) a = Some q /\
      y = add (b32_r x) (mul (mul gamma (sub one (b32_d x))) q)
  else
    exists q,
      is_max (target (b32_ns x)) q /\
      y = add (b32_r x) (mul (mul gamma (sub one (b32_d x))) q).

(** 0.99, 2.5 and a terminal transition whose next state has an infinite
    action value. *)
Definition gamma99 : f32 := binary_normalize prec emax 16609443 (-24) false.
Definition two_and_half : f32 := binary_normalize prec emax 5 (-1) false.

Definition diverged_net : list f32 -> list f32 :=
  fun _ => [S754_infinity false; S754_zero false].
Definition steady_net : list f32 -> list f32 :=
  fun _ => [S754_zero false; one].

Definition terminal32 : sample32 :=
  {| b32_s := [one]; b32_ns := [one]; b32_a := 0%Z; b32_r := two_and_half;
     b32_d := one; b32_idx := 0%Z; b32_isw := one |}.

End Float32.

(** ** A small concrete instance

    An environment that counts its steps, episodes ending (and truncation
    being reported) where the two predicates say; a network whose
    parameters are its row of action values; a buffer that is the list of
    the rewards inserted. *)

Module Toy.

Definition toy_reset (e : Z * Z) (seed : Z) : (Z * Z) * observation :=
  ((seed, 0%Z), [inject_Z seed]).

Definition toy_step (done_at trunc_at : Z -> bool) (e : Z * Z) (a : action)
  : (Z * Z) * step_result :=
  let k := (snd e + 1)%Z in
  ((fst e, k),
   {| next_s := [inject_Z (fst e); inject_Z k];
      rew := 1;
      done := done_at k;
      trunc := trunc_at k |}).

Definition toy_sample (buf : list Q) (b : Q) (g : Z) (k : Z) : batch * Z :=
  ([ {| b_s := []; b_ns := [1%Q]; b_a := 0%Z; b_r := hd 0%Q buf;
        b_d := 0; b_idx := 0%Z; b_isw := 1 |} ], (g + 1)%Z).

Definition toy (done_at trunc_at : Z -> bool) : collaborators :=
  {| env_t := (Z * Z)%type;
     rng_t := Z;
     params_t := list Q;
     optim_t := Q;
     buffer_t := list Q;
     seed_all := fun z => z;
     np_randint := fun g lo hi => ((lo + g mod (hi - lo))%Z, (g + 1)%Z);
     gym_make := (0%Z, 0%Z);
     n_states_of := fun _ => 2%Z;
     n_actions_of := fun _ => 2%Z;
     env_reset := toy_reset;
     env_step := toy_step done_at trunc_at;
     new_net := fun _ _ _ l g => (([0%Q; 0%Q], l), (g + 1)%Z);
     forward := fun p _ => p;
     sample_discrete_action := fun _ g _ _ _ => (0%Z, (g + 1)%Z);
     optimizer_step := fun p o _ targ _ => (map (Qplus 1) p, o);
     set_lr := fun _ l => l;
     new_replay := fun _ _ _ _ _ => [];
     counter := fun buf => Z.of_nat (length buf);
     insert := fun buf _ _ _ r _ => r :: buf;
     sample_experience := toy_sample;
     update_priorities := fun buf _ _ => buf |}.

Definition never (k : Z) : bool := false.
Definition always (k : Z) : bool := true.

Definition toy_hp : hparams :=
  {| SEED := 7;
     DDQN := true;
     DUELING := false;
     PER := true;
     PER_ALPHA := 6 # 10;
     PER_BETA := 4 # 10;
     PLOT_INTERVAL := 1;
     TOTAL_TIMESTEPS := 3;
     N_STEPS := 2;
     UPDATE_STEPS := 1;
     UPDATE_TARGET := 2;
     BATCH_SIZE := 1;
     BUFFER_SIZE := 10;
     GAMMA := 99 # 100;
     INIT_LR := 1 # 1000;
     IS_LR_DECAY := true;
     LR_DECAY := 1 # 100;
     INIT_EPS := 1;
     FIN_EPS := 5 # 100;
     EXPLORE := 2 |}.

(** States of two small runs: episodes that never end early, with and
    without the environment reporting truncation. *)
Definition quiet : collaborators := toy never never.

Definition first_step : train_state quiet :=
  begin_episode toy_hp (init_state quiet toy_hp).

Definition after_first_episode : train_state quiet :=
  match episode toy_hp (init_state quiet toy_hp) with
  | inr st => st
  | inl _ => init_state quiet toy_hp
  end.

Definition third_step : train_state quiet :=
  begin_episode toy_hp after_first_episode.

Definition after_third_step : train_state quiet :=
  match loop_body toy_hp third_step with
  | inr (st, _) => st
  | inl _ => third_step
  end.

Definition final_state : train_state quiet :=
  match main quiet toy_hp 3 with
  | Some (inr st) => st
  | _ => init_state quiet toy_hp
  end.



End Toy.

(** ** Book-keeping read off the log and the phase *)

Definition is_reset (c : env_call) : bool :=
  match c with
  | CallReset _ => true
  | CallStep _ => false
  end.

(** The number of [reset] calls of a log. *)
Definition count_resets (log : list env_call) : nat :=
  length (filter is_reset log).

(** The number of episodes that have run to their end, at a control
    point: [epoch_counter] counts the current one from its first line. *)
Definition episodes_done {C : collaborators} (ph : phase)
  (st : train_state C) : Z :=
  match ph with
  | Outside => epoch_counter st
  | _ => (epoch_counter st - 1)%Z
  end.

(** Configurations with a zero where the loop divides, and an environment
    whose every step ends the episode. *)
Module Edge.

Definition with_cadences
  (total explore plot update_steps update_target : Z) : hparams :=
  {| SEED := 7;
     DDQN := false;
     DUELING := false;
     PER := false;
     PER_ALPHA := 6 # 10;
     PER_BETA := 4 # 10;
     PLOT_INTERVAL := plot;
     TOTAL_TIMESTEPS := total;
     N_STEPS := 2;
     UPDATE_STEPS := update_steps;
     UPDATE_TARGET := update_target;
     BATCH_SIZE := 0;
     BUFFER_SIZE := 10;
     GAMMA := 99 # 100;
     INIT_LR := 1 # 1000;
     IS_LR_DECAY := true;
     LR_DECAY := 1 # 100;
     INIT_EPS := 1;
     FIN_EPS := 5 # 100;
     EXPLORE := explore |}.

Definition no_explore : hparams := with_cadences 3 0 1 1 2.
Definition no_plot : hparams := with_cadences 3 2 0 1 2.
Definition no_update_steps : hparams := with_cadences 3 2 1 0 2.
Definition no_update_target : hparams := with_cadences 3 2 1 1 0.
Definition no_budget : hparams := with_cadences 0 2 2 1 3.
Definition plain : hparams := with_cadences 3 2 2 1 3.

Definition ending : collaborators := Toy.toy Toy.always Toy.never.

Definition plain_final : train_state Toy.quiet :=
  match main Toy.quiet plain 3 with
  | Some (inr st) => st
  | _ => init_state Toy.quiet plain
  end.

Definition ending_first : train_state ending :=
  match episode Toy.toy_hp (init_state ending Toy.toy_hp) with
  | inr st => st
  | inl _ => init_state ending Toy.toy_hp
  end.

Definition first_stored : train_state Toy.quiet :=
  begin_episode no_update_steps (init_state Toy.quiet no_update_steps).

End Edge.

(** * Facts *)

Unset Implicit Arguments.
Open Scope Q_scope.

(** ** The error monad *)

Lemma bind_inr {A B : Type} (c : M A) (k : A -> M B) (b : B) :
  bind c k = inr b -> exists a, c = inr a /\ k a = inr b.
Proof.
  destruct c as [e | a]; simpl; intros H.
  - discriminate.
  - exists a. split; [reflexivity | exact H].
Qed.

Ltac inv_bind H :=
  let a := fresh "v" in
  let Ha := fresh "Hv" in
  apply bind_inr in H; destruct H as (a & Ha & H).

Lemma py_mod_inr (a b m : Z) :
  py_mod a b = inr m -> b <> 0%Z /\ m = (a mod b)%Z.
Proof.
  unfold py_mod. destruct (Z.eqb_spec b 0); intros H.
  - discriminate.
  - inversion H. split; [assumption | reflexivity].
Qed.

Lemma py_div_inr (a b q : Q) :
  py_div a b = inr q -> ~ b == 0 /\ q = (a / b)%Q.
Proof.
  unfold py_div. destruct (Qeq_bool b 0) eqn:E; intros H.
  - discriminate.
  - inversion H. split; [| reflexivity].
    intros Hb. apply Qeq_bool_iff in Hb. congruence.
Qed.

Lemma py_div_ok (a b : Q) : ~ b == 0 -> py_div a b = inr (a / b)%Q.
Proof.
  intros Hb. unfold py_div. destruct (Qeq_bool b 0) eqn:E.
  - apply Qeq_bool_iff in E. contradiction.
  - reflexivity.
Qed.

Lemma Qltb_true (x y : Q) : Qltb x y = true <-> x < y.
Proof.
  unfold Qltb. rewrite negb_true_iff. split; intros H.
  - destruct (Qlt_le_dec x y) as [L | L]; [exact L |].
    apply Qle_bool_iff in L. congruence.
  - destruct (Qle_bool y x) eqn:E; [| reflexivity].
    apply Qle_bool_iff in E. lra.
Qed.

Lemma Qltb_false (x y : Q) : Qltb x y = false <-> y <= x.
Proof.
  unfold Qltb. rewrite negb_false_iff. apply Qle_bool_iff.
Qed.

(** ** [torch.max] returns the maximum and the place where it stands *)

Lemma torch_max_from_spec (l pre : list Q) (best : Q) (besti : nat) :
  nth_error (pre ++ l) besti = Some best ->
  (forall x, In x pre -> x <= best) ->
  nth_error (pre ++ l) (snd (torch_max_from best besti (length pre) l))
    = Some (fst (torch_max_from best besti (length pre) l)) /\
  (forall x, In x (pre ++ l) ->
     x <= fst (torch_max_from best besti (length pre) l)).
Proof.
  revert pre best besti.
  induction l as [| y t IH]; intros pre best besti Hn Hle; simpl.
  - split; [exact Hn |]. rewrite app_nil_r. exact Hle.
  - assert (E : pre ++ y :: t = (pre ++ [y]) ++ t)
      by (rewrite <- app_assoc; reflexivity).
    assert (L : S (length pre) = length (pre ++ [y]))
      by (rewrite length_app; simpl; lia).
    rewrite E, L.
    destruct (Qltb best y) eqn:C.
    + apply Qltb_true in C. apply IH.
      * rewrite <- E. rewrite nth_error_app2 by lia.
        rewrite Nat.sub_diag. reflexivity.
      * intros x Hx. apply in_app_or in Hx. destruct Hx as [Hx | [Hx | []]].
        -- specialize (Hle x Hx). lra.
        -- subst x. lra.
    + apply Qltb_false in C. apply IH.
      * rewrite <- E. exact Hn.
      * intros x Hx. apply in_app_or in Hx. destruct Hx as [Hx | [Hx | []]].
        -- exact (Hle x Hx).
        -- subst x. exact C.
Qed.

Lemma torch_max_spec (row : list Q) (v : Q) (i : nat) :
  torch_max row = inr (v, i) ->
  nth_error row i = Some v /\ forall x, In x row -> x <= v.
Proof.
  destruct row as [| y t]; simpl; intros H; [discriminate |].
  inversion H as [H1]. clear H.
  destruct (torch_max_from_spec t [y] y 0) as [A B].
  - reflexivity.
  - intros x [Hx | []]. subst x. lra.
  - simpl in A, B. rewrite H1 in A, B. simpl in A, B. split; assumption.
Qed.

Lemma torch_max_ok (row : list Q) :
  row <> [] -> exists v i, torch_max row = inr (v, i).
Proof.
  destruct row as [| y t]; intros H; [contradiction |].
  simpl. destruct (torch_max_from y 0 1 t) as [v i]. eauto.
Qed.

Lemma torch_max_is_max (row : list Q) (v : Q) (i : nat) :
  torch_max row = inr (v, i) -> is_max row v /\ is_argmax row i.
Proof.
  intros H. apply torch_max_spec in H. destruct H as [A B].
  split.
  - split; [eapply nth_error_In; exact A | exact B].
  - exists v. split; assumption.
Qed.

(** Gathering a row at the index [torch.max] reports gives back the
    value it reports. *)
Lemma gather_at_max (row : list Q) :
  (mx <- torch_max row ;; torch_gather row (snd mx))
  = (mx <- torch_max row ;; ret (fst mx)).
Proof.
  destruct (torch_max row) as [e | [v i]] eqn:E; simpl; [reflexivity |].
  apply torch_max_spec in E. destruct E as [A _].
  unfold torch_gather. rewrite A. reflexivity.
Qed.

Lemma mapM_ext {A B : Type} (f g : A -> M B) (l : list A) :
  (forall a, In a l -> f a = g a) -> mapM f l = mapM g l.
Proof.
  induction l as [| a t IH]; intros H; simpl; [reflexivity |].
  rewrite (H a) by (left; reflexivity).
  rewrite IH by (intros; apply H; right; assumption).
  reflexivity.
Qed.

Lemma mapM_Forall2 {A B : Type} (f : A -> M B) (P : A -> B -> Prop)
  (l : list A) :
  (forall a, In a l -> exists b, f a = inr b /\ P a b) ->
  exists bs, mapM f l = inr bs /\ Forall2 P l bs.
Proof.
  induction l as [| a t IH]; intros H; simpl.
  - exists []. split; [reflexivity | constructor].
  - destruct (H a) as (b & Hb & Pb); [left; reflexivity |].
    destruct IH as (bs & Hbs & Pbs); [intros; apply H; right; assumption |].
    exists (b :: bs). rewrite Hb, Hbs. simpl.
    split; [reflexivity | constructor; assumption].
Qed.

(** ** The TD target *)

Section TDTargetFacts.

Variable gamma : Q.
Variables online target : observation -> list Q.

Lemma q_ns_of_vanilla (ns : observation) :
  target ns <> [] ->
  exists q, q_ns_of false online target ns = inr q /\ is_max (target ns) q.
Proof.
  intros Hne. destruct (torch_max_ok _ Hne) as (v & i & E).
  exists v. unfold q_ns_of. rewrite E. simpl.
  split; [reflexivity |]. apply (torch_max_is_max _ _ _ E).
Qed.

Lemma q_ns_of_double (ns : observation) :
  online ns <> [] ->
  length (online ns) = length (target ns) ->
  exists a q,
    q_ns_of true online target ns = inr q /\
    is_argmax (online ns) a /\ nth_error (target ns) a = Some q.
Proof.
  intros Hne Hlen. destruct (torch_max_ok _ Hne) as (v & i & E).
  assert (Hi : (i < length (target ns))%nat).
  { rewrite <- Hlen. apply nth_error_Some.
    apply torch_max_spec in E. destruct E as [A _]. congruence. }
  destruct (nth_error (target ns) i) as [q |] eqn:G.
  - exists i, q. unfold q_ns_of. rewrite E. simpl.
    unfold torch_gather. rewrite G.
    split; [reflexivity |]. split; [| reflexivity].
    apply (torch_max_is_max _ _ _ E).
  - apply nth_error_None in G. lia.
Qed.

Lemma q_targ_of_spec (ddqn : bool) (x : sample) :
  target (b_ns x) <> [] ->
  (ddqn = true -> length (online (b_ns x)) = length (target (b_ns x))) ->
  exists y,
    q_targ_of ddqn gamma online target x = inr y /\
    td_target_spec ddqn gamma online target x y /\
    (b_d x == 1 -> y == b_r x).
Proof.
  intros Hne Hlen. unfold q_targ_of, td_target_spec.
  destruct ddqn.
  - specialize (Hlen eq_refl).
    destruct (q_ns_of_double (b_ns x)) as (a & q & E & A & G).
    + intros H0. apply Hne. apply length_zero_iff_nil.
      rewrite <- Hlen, H0. reflexivity.
    + exact Hlen.
    + rewrite E. simpl. eexists. split; [reflexivity |]. split.
      * exists a, q. repeat split; assumption.
      * intros Hd. rewrite Hd. ring.
  - destruct (q_ns_of_vanilla (b_ns x) Hne) as (q & E & A).
    rewrite E. simpl. eexists. split; [reflexivity |]. split.
    + exists q. split; [assumption | reflexivity].
    + intros Hd. rewrite Hd. ring.
Qed.

End TDTargetFacts.

(** The TD target in exact arithmetic, as the loop model carries it.
    When the target network returns at least one action value for the
    next state of every sample (and, in double mode, the online network
    returns as many), the TD target of a batch is
    computed and, sample by sample, it is
    [reward + GAMMA * (1 - done) * max_a target(next_state)[a]] in vanilla
    mode and [reward + GAMMA * (1 - done) * target(next_state)[a*]] with
    [a*] an arg-max of the online values in double mode; a sample with
    [done = 1] gets its reward as target, whatever the next-state values
    are, in both modes. *)
Theorem td_target_formula
  (ddqn : bool) (gamma : Q) (online target : observation -> list Q)
  (b : batch) :
  (forall x, In x b ->
     target (b_ns x) <> [] /\
     (ddqn = true ->
      length (online (b_ns x)) = length (target (b_ns x)))) ->
  exists targ,
    q_targ ddqn gamma online target b = inr targ /\
    Forall2
      (fun x y =>
         td_target_spec ddqn gamma online target x y /\
         (b_d x == 1 -> y == b_r x))
      b targ.
Proof.
  intros H. unfold q_targ. apply mapM_Forall2.
  intros x Hx. destruct (H x Hx) as [Hne Hlen].
  destruct (q_targ_of_spec gamma online target ddqn x Hne Hlen)
    as (y & E & S1 & S2).
  exists y. auto.
Qed.

(** C2.  When the online and the target network compute the same action
    values, double mode and vanilla mode give the same TD targets on every
    batch; and for every discount other than zero there is a batch, with
    networks that disagree on the arg-max action of its next state, on which
    the two modes give different targets. *)
Theorem double_vs_vanilla :
  (forall (gamma : Q) (online target : observation -> list Q) (b : batch),
     (forall ns, online ns = target ns) ->
     q_targ true gamma online target b = q_targ false gamma online target b)
  /\
  (forall gamma : Q, ~ gamma == 0 ->
     exists (online target : observation -> list Q) (b : batch) (y1 y2 : Q),
       (forall x, In x b ->
          argmax_of (online (b_ns x)) <> argmax_of (target (b_ns x))) /\
       b <> [] /\
       q_targ true gamma online target b = inr [y1] /\
       q_targ false gamma online target b = inr [y2] /\
       ~ y1 == y2).
Proof.
  split.
  - intros gamma online target b Heq. unfold q_targ.
    apply mapM_ext. intros x _. unfold q_targ_of, q_ns_of.
    rewrite Heq. rewrite gather_at_max. reflexivity.
  - intros gamma Hg.
    exists disagreeing_online, disagreeing_target, disagreeing_batch.
    eexists. eexists.
    split; [| split; [| split; [| split]]].
    + intros x _. vm_compute. discriminate.
    + discriminate.
    + reflexivity.
    + reflexivity.
    + simpl. intros E. apply Hg. lra.
Qed.

Lemma td_target_formula_witness :
  (forall x, In x terminal_batch ->
     disagreeing_target (b_ns x) <> [] /\
     (true = true ->
      length (disagreeing_online (b_ns x))
      = length (disagreeing_target (b_ns x)))) /\
  exists targ,
    q_targ true (99 # 100) disagreeing_online disagreeing_target
      terminal_batch = inr targ /\
    Forall2
      (fun x y =>
         td_target_spec true (99 # 100) disagreeing_online
           disagreeing_target x y /\
         (b_d x == 1 -> y == b_r x))
      terminal_batch targ.
Proof.
  assert (H : forall x, In x terminal_batch ->
     disagreeing_target (b_ns x) <> [] /\
     (true = true ->
      length (disagreeing_online (b_ns x))
      = length (disagreeing_target (b_ns x)))).
  { intros x _. split; [discriminate | intros _; reflexivity]. }
  split; [exact H |].
  exact (td_target_formula true (99 # 100) disagreeing_online
           disagreeing_target terminal_batch H).
Defined.

Lemma double_vs_vanilla_witness :
  q_targ true (99 # 100) disagreeing_target disagreeing_target
    disagreeing_batch
  = q_targ false (99 # 100) disagreeing_target disagreeing_target
      disagreeing_batch
  /\
  exists (online target : observation -> list Q) (b : batch) (y1 y2 : Q),
    (forall x, In x b ->
       argmax_of (online (b_ns x)) <> argmax_of (target (b_ns x))) /\
    b <> [] /\
    q_targ true (99 # 100) online target b = inr [y1] /\
    q_targ false (99 # 100) online target b = inr [y2] /\
    ~ y1 == y2.
Proof.
  split.
  - apply (proj1 double_vs_vanilla). intros ns. reflexivity.
  - apply (proj2 double_vs_vanilla). intros E. discriminate E.
Defined.

(** ** One iteration of the step loop, taken apart *)

Section LoopFacts.

Variable C : collaborators.
Variable hp : hparams.

Local Abbreviation state := (train_state C).

Lemma loop_body_inv (st st' : state) (brk : bool) :
  loop_body hp st = inr (st', brk) ->
  exists due st2 st3,
    learn_due hp (stored st) = inr due /\
    (if due then learn hp (stored st) else ret (stored st)) = inr st2 /\
    decay hp st2 = inr st3 /\
    st' = advance st3 (snd (interact st)) /\
    brk = done (snd (interact st)).
Proof.
  unfold loop_body, stored.
  destruct (interact st) as [[st0 a] r]. simpl.
  unfold after_env_step. intros H.
  inv_bind H. inv_bind H. inv_bind H.
  inversion H. subst. eauto 10.
Qed.

Lemma learns_of_due (st : state) (due : bool) :
  learn_due hp (stored st) = inr due -> learns hp st = due.
Proof. unfold learns. intros E. rewrite E. reflexivity. Qed.

(** What [stored] changes: the step count, the buffer, the episode return,
    the random source, the environment and its log. *)
Lemma stored_fields (st : state) :
  step_counter (stored st) = (step_counter st + 1)%Z /\
  lstep_counter (stored st) = lstep_counter st /\
  epoch_counter (stored st) = epoch_counter st /\
  online_qnet (stored st) = online_qnet st /\
  target_qnet (stored st) = target_qnet st /\
  epsilon (stored st) = epsilon st /\
  beta (stored st) = beta st /\
  exists a, env_calls (stored st) = CallStep a :: env_calls st.
Proof.
  unfold stored, interact.
  destruct (sample_discrete_action C _ _ _ _ _) as [a g].
  destruct (env_step C _ _) as [e1 r]. simpl.
  repeat split. exists a. reflexivity.
Qed.

Lemma gradient_update_fields (st st' : state) :
  gradient_update hp st = inr st' ->
  step_counter st' = step_counter st /\
  lstep_counter st' = lstep_counter st /\
  epoch_counter st' = epoch_counter st /\
  target_qnet st' = target_qnet st /\
  epsilon st' = epsilon st /\
  beta st' = beta st /\
  env_calls st' = env_calls st.
Proof.
  unfold gradient_update.
  destruct (sample_experience C _ _ _ _) as [b g].
  intros H. inv_bind H. inv_bind H.
  destruct (optimizer_step C _ _ _ _ _) as [p o].
  inversion H. subst. simpl. repeat split.
Qed.

Lemma learn_fields (st st' : state) :
  learn hp st = inr st' ->
  UPDATE_TARGET hp <> 0%Z /\
  step_counter st' = step_counter st /\
  lstep_counter st' = (lstep_counter st + 1)%Z /\
  epoch_counter st' = epoch_counter st /\
  target_qnet st' =
    (if ((lstep_counter st + 1) mod UPDATE_TARGET hp =? 0)%Z
     then load_state_dict (target_qnet st) (online_qnet st)
     else target_qnet st) /\
  epsilon st' = epsilon st /\
  beta st' = beta st /\
  env_calls st' = env_calls st.
Proof.
  unfold learn, sync_due. intros H. inv_bind H. inv_bind Hv.
  apply py_mod_inr in Hv0. destruct Hv0 as [Hne Hm].
  inversion Hv. subst. simpl in *.
  apply gradient_update_fields in H.
  destruct ((lstep_counter st + 1) mod UPDATE_TARGET hp =? 0)%Z;
    simpl in H; intuition congruence.
Qed.

Lemma decay_fields (st st' : state) :
  decay hp st = inr st' ->
  eps_decay hp (epsilon st) = inr (epsilon st') /\
  beta_anneal hp (step_counter st) (beta st) = inr (beta st') /\
  step_counter st' = step_counter st /\
  lstep_counter st' = lstep_counter st /\
  epoch_counter st' = epoch_counter st /\
  online_qnet st' = online_qnet st /\
  target_qnet st' = target_qnet st /\
  exp_replay st' = exp_replay st /\
  env_calls st' = env_calls st.
Proof.
  unfold decay. intros H. inv_bind H. inv_bind H.
  inversion H. subst. simpl. repeat split; assumption.
Qed.

(** The iteration as a whole. *)
Lemma loop_body_fields (st st' : state) (brk : bool) :
  loop_body hp st = inr (st', brk) ->
  learn_due hp (stored st) = inr (learns hp st) /\
  step_counter st' = (step_counter st + 1)%Z /\
  lstep_counter st' =
    (lstep_counter st + (if learns hp st then 1 else 0))%Z /\
  epoch_counter st' = epoch_counter st /\
  target_qnet st' =
    (if syncs hp st
     then load_state_dict (target_qnet st) (online_qnet st)
     else target_qnet st) /\
  (learns hp st = false ->
     online_qnet st' = online_qnet st /\
     exp_replay st' = exp_replay (stored st)) /\
  eps_decay hp (epsilon st) = inr (epsilon st') /\
  beta_anneal hp (step_counter st + 1) (beta st) = inr (beta st') /\
  (exists a, env_calls st' = CallStep a :: env_calls st) /\
  brk = done (snd (interact st)).
Proof.
  intros H. apply loop_body_inv in H.
  destruct H as (due & st2 & st3 & Hdue & Hl & Hd & -> & ->).
  pose proof (learns_of_due _ _ Hdue) as HL.
  destruct (stored_fields st) as (S1 & S2 & S3 & S4 & S5 & S6 & S7 & a & S8).
  apply decay_fields in Hd.
  destruct Hd as (D1 & D2 & D3 & D4 & D5 & D6 & D7 & D8 & D9).
  unfold syncs. rewrite HL. simpl.
  destruct due.
  - apply learn_fields in Hl.
    destruct Hl as (L0 & L1 & L2 & L3 & L4 & L5 & L6 & L7).
    rewrite D3, D4, D5, D7, D9, L1, L2, L3, L4, L7, S1, S2, S3, S4, S5, S8.
    rewrite L5, S6 in D1. rewrite L1, L6, S1, S7 in D2.
    repeat split; try assumption; try discriminate. exists a. reflexivity.
  - inversion Hl. subst st2.
    rewrite D3, D4, D5, D6, D7, D8, D9, S1, S2, S3, S4, S5, S8.
    rewrite S6 in D1. rewrite S1, S7 in D2.
    repeat split; try assumption; try lia. exists a. reflexivity.
Qed.
(** *** Episode boundaries *)

Lemma begin_episode_fields (st : state) :
  step_counter (begin_episode hp st) = step_counter st /\
  lstep_counter (begin_episode hp st) = lstep_counter st /\
  epoch_counter (begin_episode hp st) = (epoch_counter st + 1)%Z /\
  online_qnet (begin_episode hp st) = online_qnet st /\
  target_qnet (begin_episode hp st) = target_qnet st /\
  exp_replay (begin_episode hp st) = exp_replay st /\
  epsilon (begin_episode hp st) = epsilon st /\
  beta (begin_episode hp st) = beta st /\
  env_calls (begin_episode hp st) = CallReset (env_seed C hp) :: env_calls st.
Proof.
  unfold begin_episode. destruct (env_reset C _ _) as [e s0]. simpl.
  repeat split.
Qed.

Lemma eval_loop_log (z : Z) (model : qnet C) (n : nat) :
  forall e g log s0 r0 r e' g' log',
    eval_loop model n e g log s0 r0 = (r, e', g', log') ->
    resets_use z log -> resets_use z log'.
Proof.
  induction n as [| n IH]; simpl; intros e g log s0 r0 r e' g' log' H Hlog.
  - inversion H. subst. exact Hlog.
  - destruct (sample_discrete_action C _ _ _ _ _) as [a g1].
    destruct (env_step C _ _) as [e1 sr].
    assert (Hlog1 : resets_use z (CallStep a :: log))
      by (constructor; [exact I | exact Hlog]).
    destruct (done sr).
    + inversion H. subst. exact Hlog1.
    + eapply IH; eassumption.
Qed.

Lemma eval_model_log (model : qnet C) e g log max_steps z r e' g' log' :
  eval_model model e g log max_steps z = (r, e', g', log') ->
  resets_use z log -> resets_use z log'.
Proof.
  unfold eval_model. destruct (env_reset C e z) as [e0 s0]. intros H Hlog.
  eapply eval_loop_log; [exact H |].
  constructor; [reflexivity | exact Hlog].
Qed.

Lemma evaluate_fields (st : state) :
  exp_replay (evaluate hp st) = exp_replay st /\
  online_qnet (evaluate hp st) = online_qnet st /\
  target_qnet (evaluate hp st) = target_qnet st /\
  step_counter (evaluate hp st) = step_counter st /\
  lstep_counter (evaluate hp st) = lstep_counter st /\
  epoch_counter (evaluate hp st) = epoch_counter st /\
  epsilon (evaluate hp st) = epsilon st /\
  beta (evaluate hp st) = beta st /\
  lr (evaluate hp st) = lr st /\
  (resets_use (env_seed C hp) (env_calls st) ->
   resets_use (env_seed C hp) (env_calls (evaluate hp st))).
Proof.
  unfold evaluate.
  destruct (eval_model _ _ _ _ _ _) as [[[r e] g] log] eqn:E. simpl.
  repeat split. intros Hlog. eapply eval_model_log; eassumption.
Qed.

Lemma lr_decay_fields (st st' : state) :
  lr_decay hp st = inr st' ->
  exp_replay st' = exp_replay st /\
  state_dict (online_qnet st') = state_dict (online_qnet st) /\
  target_qnet st' = target_qnet st /\
  step_counter st' = step_counter st /\
  lstep_counter st' = lstep_counter st /\
  epoch_counter st' = epoch_counter st /\
  epsilon st' = epsilon st /\
  beta st' = beta st /\
  env_calls st' = env_calls st.
Proof.
  unfold lr_decay. destruct (IS_LR_DECAY hp); intros H.
  - inv_bind H. inversion H. subst. simpl. repeat split.
  - inversion H. subst. repeat split.
Qed.

Lemma end_episode_fields (st st' : state) :
  end_episode hp st = inr st' ->
  exp_replay st' = exp_replay st /\
  state_dict (online_qnet st') = state_dict (online_qnet st) /\
  target_qnet st' = target_qnet st /\
  step_counter st' = step_counter st /\
  lstep_counter st' = lstep_counter st /\
  epoch_counter st' = epoch_counter st /\
  epsilon st' = epsilon st /\
  beta st' = beta st /\
  (resets_use (env_seed C hp) (env_calls st) ->
   resets_use (env_seed C hp) (env_calls st')).
Proof.
  unfold end_episode. intros H. inv_bind H. inv_bind H.
  apply lr_decay_fields in Hv.
  destruct Hv as (A1 & A2 & A3 & A4 & A5 & A6 & A7 & A8 & A9).
  inversion H as [H1]. clear H H1.
  destruct v0.
  - destruct (evaluate_fields (accumulate v))
      as (B1 & B2 & B3 & B4 & B5 & B6 & B7 & B8 & _ & B9).
    rewrite B1, B2, B3, B4, B5, B6, B7, B8. simpl.
    repeat split; try assumption.
    intros Hlog. apply B9. simpl. rewrite A9. exact Hlog.
  - simpl. repeat split; try assumption. rewrite A9. auto.
Qed.

End LoopFacts.

(** ** Learning updates and the target network *)

Section UpdateFacts.

Variable C : collaborators.
Variable hp : hparams.

Local Abbreviation state := (train_state C).

Lemma learn_due_spec (st : state) (due : bool) :
  learn_due hp st = inr due ->
  (due = true <->
   (BATCH_SIZE hp < counter C (exp_replay st))%Z /\
   (UPDATE_STEPS hp | step_counter st)%Z).
Proof.
  unfold learn_due.
  destruct (Z.ltb_spec (BATCH_SIZE hp) (counter C (exp_replay st))) as [L | L];
    intros H.
  - inv_bind H. apply py_mod_inr in Hv. destruct Hv as [Hne ->].
    inversion H as [H1]. clear H H1.
    rewrite Z.eqb_eq, (Z.mod_divide _ _ Hne). tauto.
  - inversion H. split; [discriminate | lia].
Qed.

Lemma learn_due_below (st : state) :
  (counter C (exp_replay st) <= BATCH_SIZE hp)%Z ->
  learn_due hp st = inr false.
Proof.
  intros L. unfold learn_due.
  destruct (Z.ltb_spec (BATCH_SIZE hp) (counter C (exp_replay st)));
    [lia | reflexivity].
Qed.

Lemma learns_needs_cadence (st st' : state) (brk : bool) :
  loop_body hp st = inr (st', brk) ->
  learns hp st = true ->
  UPDATE_TARGET hp <> 0%Z.
Proof.
  intros H HL. apply loop_body_inv in H.
  destruct H as (due & st2 & st3 & Hdue & Hl & _).
  rewrite (learns_of_due C hp _ _ Hdue) in HL. subst due.
  apply learn_fields in Hl. tauto.
Qed.

Lemma syncs_spec (st st' : state) (brk : bool) :
  loop_body hp st = inr (st', brk) ->
  (syncs hp st = true <->
   lstep_counter st' = (lstep_counter st + 1)%Z /\
   (UPDATE_TARGET hp | lstep_counter st')%Z).
Proof.
  intros H. pose proof (learns_needs_cadence _ _ _ H) as Hne.
  apply loop_body_fields in H. destruct H as (_ & _ & HL & _).
  unfold syncs. rewrite HL. destruct (learns hp st); simpl.
  - specialize (Hne eq_refl).
    rewrite Z.eqb_eq, (Z.mod_divide _ _ Hne). tauto.
  - split; [discriminate | lia].
Qed.

Lemma no_sync_run_target (st st2 : state) :
  no_sync_run hp st st2 -> target_qnet st2 = target_qnet st.
Proof.
  induction 1 as [st | st st2 _ IH | st st' brk st2 Hb Hs _ IH
                 | st st' st2 He _ IH].
  - reflexivity.
  - rewrite IH. apply (begin_episode_fields C hp st).
  - rewrite IH. apply loop_body_fields in Hb.
    destruct Hb as (_ & _ & _ & _ & Ht & _). rewrite Hs in Ht. exact Ht.
  - rewrite IH. apply end_episode_fields in He. tauto.
Qed.

(** C3.  An iteration of the step loop overwrites the parameters of the
    target network exactly when it takes a learning update whose number
    (the learning-update count after it is taken) is a multiple of
    UPDATE_TARGET; the target then holds the parameters the online network
    had at the sync, and right after the copy the two parameter sets are
    equal.  Every other iteration, the start and the end of an episode, and
    any stretch of the run without such an update leave the target network
    as it was. *)
Theorem target_sync_frame :
  (forall (st st' : state) (brk : bool),
     loop_body hp st = inr (st', brk) ->
     (syncs hp st = true <->
      lstep_counter st' = (lstep_counter st + 1)%Z /\
      (UPDATE_TARGET hp | lstep_counter st')%Z) /\
     (syncs hp st = true ->
      state_dict (target_qnet st') = state_dict (online_qnet st)) /\
     (syncs hp st = false -> target_qnet st' = target_qnet st)) /\
  (forall st : state,
     state_dict (target_qnet (sync_target st))
     = state_dict (online_qnet (sync_target st))) /\
  (forall st : state, target_qnet (begin_episode hp st) = target_qnet st) /\
  (forall st st' : state,
     end_episode hp st = inr st' -> target_qnet st' = target_qnet st) /\
  (forall st st2 : state,
     no_sync_run hp st st2 -> target_qnet st2 = target_qnet st).
Proof.
  split; [| split; [| split; [| split]]].
  - intros st st' brk H. split; [exact (syncs_spec _ _ _ H) |].
    apply loop_body_fields in H. destruct H as (_ & _ & _ & _ & Ht & _).
    split; intros Hs; rewrite Hs in Ht; rewrite Ht; reflexivity.
  - intros st. reflexivity.
  - intros st. apply (begin_episode_fields C hp st).
  - intros st st' H. apply end_episode_fields in H. tauto.
  - exact no_sync_run_target.
Qed.

Lemma gradient_update_detail (st st' : state) :
  gradient_update hp st = inr st' ->
  exists targ loss,
    q_targ (DDQN hp) (GAMMA hp) (forward C (state_dict (online_qnet st)))
      (forward C (state_dict (target_qnet st)))
      (fst (sample_experience C (exp_replay st) (beta st) (rng st)
              (BATCH_SIZE hp))) = inr targ /\
    td_loss
      (map (fun x => forward C (state_dict (online_qnet st)) (b_s x))
         (fst (sample_experience C (exp_replay st) (beta st) (rng st)
                 (BATCH_SIZE hp))))
      (fst (sample_experience C (exp_replay st) (beta st) (rng st)
              (BATCH_SIZE hp))) targ = inr loss /\
    online_qnet st' =
      (let '(p, o) :=
         optimizer_step C (state_dict (online_qnet st))
           (optimizer (online_qnet st))
           (fst (sample_experience C (exp_replay st) (beta st) (rng st)
                   (BATCH_SIZE hp))) targ (PER hp) in
       mkQnet p o) /\
    rng st' =
      snd (sample_experience C (exp_replay st) (beta st) (rng st)
             (BATCH_SIZE hp)) /\
    exp_replay st' =
      (if PER hp
       then update_priorities C (exp_replay st)
              (map b_idx
                 (fst (sample_experience C (exp_replay st) (beta st)
                         (rng st) (BATCH_SIZE hp)))) loss
       else exp_replay st).
Proof.
  unfold gradient_update.
  destruct (sample_experience C _ _ _ _) as [b g]. simpl fst. simpl snd.
  intros H.
  apply bind_inr in H. destruct H as (targ & Ht & H).
  apply bind_inr in H. destruct H as (loss & Hl & H).
  exists targ, loss. split; [exact Ht |]. split; [exact Hl |].
  destruct (optimizer_step C _ _ _ _ _) as [p o].
  inversion H. subst. simpl. repeat split.
Qed.

Lemma decay_rng (st st' : state) :
  decay hp st = inr st' -> rng st' = rng st.
Proof.
  unfold decay. intros H.
  apply bind_inr in H. destruct H as (e & _ & H).
  apply bind_inr in H. destruct H as (b & _ & H).
  inversion H. subst. reflexivity.
Qed.

Lemma stored_buffer (st : state) :
  beta (stored st) = beta st /\
  online_qnet (stored st) = online_qnet st /\
  target_qnet (stored st) = target_qnet st.
Proof.
  destruct (stored_fields C st) as (_ & _ & _ & A & B & _ & D & _).
  repeat split; assumption.
Qed.

(** What an iteration with a learning update does to the networks, the
    buffer and the random source. *)
Lemma loop_body_learns (st st' : state) (brk : bool) :
  loop_body hp st = inr (st', brk) ->
  learns hp st = true ->
  exists targ loss,
    q_targ (DDQN hp) (GAMMA hp) (forward C (state_dict (online_qnet st)))
      (forward C (state_dict (target_qnet st'))) (fst (drawn hp st))
    = inr targ /\
    td_loss
      (map (fun x => forward C (state_dict (online_qnet st)) (b_s x))
         (fst (drawn hp st)))
      (fst (drawn hp st)) targ = inr loss /\
    online_qnet st' =
      (let '(p, o) :=
         optimizer_step C (state_dict (online_qnet st))
           (optimizer (online_qnet st)) (fst (drawn hp st)) targ (PER hp) in
       mkQnet p o) /\
    rng st' = snd (drawn hp st) /\
    exp_replay st' =
      (if PER hp
       then update_priorities C (exp_replay (stored st))
              (map b_idx (fst (drawn hp st))) loss
       else exp_replay (stored st)).
Proof.
  intros H HL.
  apply loop_body_inv in H.
  destruct H as (due & st2 & st3 & Hdue & Hl & Hd & -> & _).
  rewrite (learns_of_due C hp _ _ Hdue) in HL. subst due.
  pose proof (decay_rng _ _ Hd) as Dr.
  apply decay_fields in Hd.
  destruct Hd as (_ & _ & _ & _ & _ & Do & Dt & De & _).
  simpl. rewrite Do, Dt, Dr, De.
  destruct (stored_buffer st) as (Sb & So & St).
  unfold learn in Hl.
  apply bind_inr in Hl. destruct Hl as (sy & Hsy & Hl).
  pose proof (gradient_update_fields C hp _ _ Hl)
    as (_ & _ & _ & Gt & _).
  apply gradient_update_detail in Hl.
  destruct Hl as (targ & loss & G1 & G2 & G3 & G4 & G5).
  rewrite <- Gt in G1.
  exists targ, loss. unfold drawn.
  destruct sy; simpl in G1, G2, G3, G4, G5;
    rewrite ?Sb in G1, G2, G3, G4, G5;
    rewrite So in G1, G2, G3;
    (split; [exact G1 |]); (split; [exact G2 |]); (split; [exact G3 |]);
    (split; [exact G4 | exact G5]).
Qed.

Lemma loop_body_idle (st st' : state) (brk : bool) :
  loop_body hp st = inr (st', brk) ->
  learns hp st = false ->
  rng st' = rng (stored st).
Proof.
  intros H HL. apply loop_body_inv in H.
  destruct H as (due & st2 & st3 & Hdue & Hl & Hd & -> & _).
  rewrite (learns_of_due C hp _ _ Hdue) in HL. subst due.
  inversion Hl. subst st2. simpl. apply (decay_rng _ _ Hd).
Qed.

(** C4.  An iteration of the step loop takes a learning update (it counts
    one more learning update) if and only if, once the transition of this
    step is stored, the buffer's counter is strictly greater than
    BATCH_SIZE and the step count, this step included, is a multiple of
    UPDATE_STEPS.  When it does, a batch of BATCH_SIZE is drawn from the
    buffer, the TD target and the loss of that batch are computed with
    the online network as it was and the target network as it is after
    the iteration, the online network becomes the result of the optimizer
    step on that batch and target, and the buffer is given the new
    priorities in prioritized mode.  When it does not, nothing is drawn
    and the update count, both networks, the random source and the buffer
    (apart from the insertion) are untouched.  While the counter is at
    most BATCH_SIZE the gate raises nothing: the iteration completes,
    without a learning update, whatever UPDATE_STEPS and UPDATE_TARGET
    are. *)
Theorem learning_gate :
  (forall (st st' : state) (brk : bool),
     loop_body hp st = inr (st', brk) ->
     (lstep_counter st' = (lstep_counter st + 1)%Z <->
      (BATCH_SIZE hp < counter C (exp_replay (stored st)))%Z /\
      (UPDATE_STEPS hp | step_counter st + 1)%Z) /\
     (lstep_counter st' <> (lstep_counter st + 1)%Z ->
      lstep_counter st' = lstep_counter st /\
      online_qnet st' = online_qnet st /\
      target_qnet st' = target_qnet st /\
      exp_replay st' = exp_replay (stored st) /\
      rng st' = rng (stored st)) /\
     (lstep_counter st' = (lstep_counter st + 1)%Z ->
      exists targ loss,
        q_targ (DDQN hp) (GAMMA hp)
          (forward C (state_dict (online_qnet st)))
          (forward C (state_dict (target_qnet st'))) (fst (drawn hp st))
        = inr targ /\
        td_loss
          (map (fun x => forward C (state_dict (online_qnet st)) (b_s x))
             (fst (drawn hp st)))
          (fst (drawn hp st)) targ = inr loss /\
        online_qnet st' =
          (let '(p, o) :=
             optimizer_step C (state_dict (online_qnet st))
               (optimizer (online_qnet st)) (fst (drawn hp st)) targ
               (PER hp) in
           mkQnet p o) /\
        rng st' = snd (drawn hp st) /\
        exp_replay st' =
          (if PER hp
           then update_priorities C (exp_replay (stored st))
                  (map b_idx (fst (drawn hp st))) loss
           else exp_replay (stored st)))) /\
  (forall st : state,
     (counter C (exp_replay (stored st)) <= BATCH_SIZE hp)%Z ->
     EXPLORE hp <> 0%Z ->
     (PER hp = true -> TOTAL_TIMESTEPS hp <> 0%Z) ->
     exists (st' : state) (brk : bool),
       loop_body hp st = inr (st', brk) /\
       lstep_counter st' = lstep_counter st /\
       online_qnet st' = online_qnet st /\
       target_qnet st' = target_qnet st).
Proof.
  split.
  - intros st st' brk H.
    pose proof (loop_body_learns _ _ _ H) as Hlearn.
    pose proof (loop_body_idle _ _ _ H) as Hidle.
    pose proof (loop_body_fields C hp _ _ _ H)
      as (Hdue & _ & HL & _ & Ht & Hq & _).
    apply learn_due_spec in Hdue.
    destruct (stored_fields C st) as (S1 & _). rewrite S1 in Hdue.
    unfold syncs in Ht.
    destruct (learns hp st); simpl in *.
    + split; [| split].
      * split; [intros _; apply Hdue; reflexivity | intros _; exact HL].
      * intros N. contradiction.
      * intros _. apply Hlearn. reflexivity.
    + split; [| split].
      * split; [intros E; lia |].
        intros R. apply Hdue in R. discriminate.
      * intros _. destruct (Hq eq_refl) as [Q1 Q2].
        split; [lia |]. split; [exact Q1 |]. split; [exact Ht |].
        split; [exact Q2 | apply Hidle; reflexivity].
      * intros E. lia.
  - intros st Hc He Ht.
    assert (Hdec : forall st1 : state, exists st3, decay hp st1 = inr st3).
    { intros st1. unfold decay, eps_decay, beta_anneal.
      rewrite py_div_ok.
      2:{ intros E. apply He. unfold Qeq in E. simpl in E. lia. }
      simpl. destruct (PER hp).
      - rewrite py_div_ok.
        2:{ intros E. apply Ht; [reflexivity |].
            unfold Qeq in E. simpl in E. lia. }
        simpl. eauto.
      - simpl. eauto. }
    pose proof (learn_due_below _ Hc) as Hdue.
    destruct (Hdec (stored st)) as [st3 Hd].
    assert (Hb : loop_body hp st
                 = inr (advance st3 (snd (interact st)),
                        done (snd (interact st)))).
    { unfold loop_body. unfold stored in Hdue, Hd.
      destruct (interact st) as [[st0 a] r]. simpl.
      unfold after_env_step. rewrite Hdue. simpl. rewrite Hd. reflexivity. }
    eexists. eexists. split; [exact Hb |].
    pose proof (loop_body_fields C hp _ _ _ Hb)
      as (Hdue' & _ & HL & _ & Ht' & Hq & _).
    rewrite Hdue in Hdue'. inversion Hdue' as [E].
    unfold syncs in Ht'. rewrite <- E in HL, Ht', Hq. simpl in *.
    destruct (Hq eq_refl) as [Q1 _].
    repeat split; try assumption. lia.
Qed.


(** C10.  The greedy evaluation episode changes nothing of the training
    state: the replay buffer, both networks, the step and learning-update
    counts, the exploration rate and the bias-correction exponent are the
    same after it. *)
Theorem evaluation_frame (st : state) :
  exp_replay (evaluate hp st) = exp_replay st /\
  online_qnet (evaluate hp st) = online_qnet st /\
  target_qnet (evaluate hp st) = target_qnet st /\
  step_counter (evaluate hp st) = step_counter st /\
  lstep_counter (evaluate hp st) = lstep_counter st /\
  epsilon (evaluate hp st) = epsilon st /\
  beta (evaluate hp st) = beta st.
Proof.
  destruct (evaluate_fields C hp st)
    as (B1 & B2 & B3 & B4 & B5 & _ & B7 & B8 & _).
  repeat split; assumption.
Qed.

End UpdateFacts.

(** ** The schedules of [epsilon] and [beta] *)

Section ScheduleFacts.

Variable C : collaborators.
Variable hp : hparams.

Local Abbreviation state := (train_state C).

Lemma init_state_fields :
  step_counter (init_state C hp) = 0%Z /\
  lstep_counter (init_state C hp) = 0%Z /\
  epsilon (init_state C hp) = INIT_EPS hp /\
  beta (init_state C hp) = PER_BETA hp /\
  env_calls (init_state C hp) = [] /\
  target_qnet (init_state C hp) = online_qnet (init_state C hp).
Proof.
  unfold init_state. destruct (new_net C _ _ _ _ _) as [[p o] g]. simpl.
  repeat split.
Qed.

Lemma py_max_cases (a b : Q) :
  (b <= a /\ py_max a b = a) \/ (a < b /\ py_max a b = b).
Proof.
  unfold py_max. destruct (Qltb a b) eqn:E.
  - right. apply Qltb_true in E. auto.
  - left. apply Qltb_false in E. auto.
Qed.

Lemma inject_Z_pos (z : Z) : (1 <= z)%Z -> 0 < inject_Z z.
Proof. intros H. change 0 with (inject_Z 0). rewrite <- Zlt_Qlt. lia. Qed.

Lemma inject_Z_succ (z : Z) : inject_Z (z + 1) == inject_Z z + 1.
Proof. rewrite inject_Z_plus. reflexivity. Qed.

Lemma eps_decay_inr (eps eps' : Q) :
  eps_decay hp eps = inr eps' ->
  eps' = py_max (FIN_EPS hp)
           (eps - (INIT_EPS hp - FIN_EPS hp) / inject_Z (EXPLORE hp)).
Proof.
  unfold eps_decay. intros H. inv_bind H.
  apply py_div_inr in Hv. destruct Hv as [_ ->].
  inversion H. reflexivity.
Qed.

Lemma step_counter_nonneg (ph : phase) (st : state) :
  reach hp ph st -> (0 <= step_counter st)%Z.
Proof.
  induction 1 as [| st _ IH _ | n st st' brk _ IH Hb | st st' _ IH He].
  - destruct init_state_fields as (-> & _). lia.
  - destruct (begin_episode_fields C hp st) as (-> & _). exact IH.
  - apply loop_body_fields in Hb. destruct Hb as (_ & -> & _). lia.
  - apply end_episode_fields in He.
    destruct He as (_ & _ & _ & -> & _). exact IH.
Qed.

Section Epsilon.

Hypothesis eps_order : FIN_EPS hp <= INIT_EPS hp.
Hypothesis explore_pos : (1 <= EXPLORE hp)%Z.

Local Abbreviation delta := (eps_step hp).

Lemma delta_nonneg : 0 <= delta.
Proof.
  unfold eps_step. apply Qle_shift_div_l; [apply inject_Z_pos; assumption |].
  lra.
Qed.

Lemma delta_explore :
  delta * inject_Z (EXPLORE hp) == INIT_EPS hp - FIN_EPS hp.
Proof.
  unfold eps_step. field. pose proof (inject_Z_pos _ explore_pos). lra.
Qed.

Lemma eps_invariant (ph : phase) (st : state) :
  reach hp ph st ->
  FIN_EPS hp <= epsilon st /\
  INIT_EPS hp - inject_Z (step_counter st) * delta <= epsilon st /\
  (epsilon st <= FIN_EPS hp \/
   epsilon st <= INIT_EPS hp - inject_Z (step_counter st) * delta) /\
  ((1 <= step_counter st)%Z ->
   epsilon st = FIN_EPS hp \/ FIN_EPS hp < epsilon st).
Proof.
  pose proof delta_nonneg as Hd.
  induction 1 as [| st _ IH _ | n st st' brk _ IH Hb | st st' _ IH He].
  - destruct init_state_fields as (-> & _ & -> & _).
    change (inject_Z 0) with 0.
    repeat split; try lra. intros; lia.
  - destruct (begin_episode_fields C hp st)
      as (-> & _ & _ & _ & _ & _ & -> & _).
    exact IH.
  - destruct IH as (I1 & I2 & I3 & _).
    apply loop_body_fields in Hb.
    destruct Hb as (_ & -> & _ & _ & _ & _ & He & _).
    apply eps_decay_inr in He. fold (eps_step hp) in He. rewrite He.
    rewrite inject_Z_succ.
    destruct (py_max_cases (FIN_EPS hp) (epsilon st - delta))
      as [[L ->] | [L ->]].
    + repeat split; try lra. intros _. left. reflexivity.
    + split; [lra |]. split; [lra |]. split; [right; lra |].
      intros _. right. exact L.
  - apply end_episode_fields in He.
    destruct He as (_ & _ & _ & -> & _ & _ & -> & _).
    exact IH.
Qed.

Lemma steps_times_delta (n : Z) :
  (n <= EXPLORE hp)%Z ->
  inject_Z n * delta <= INIT_EPS hp - FIN_EPS hp.
Proof.
  intros H. rewrite <- delta_explore. rewrite (Qmult_comm delta).
  apply Qmult_le_compat_r; [| apply delta_nonneg].
  rewrite <- Zle_Qle. exact H.
Qed.

Lemma explore_times_delta (n : Z) :
  (EXPLORE hp <= n)%Z ->
  INIT_EPS hp - FIN_EPS hp <= inject_Z n * delta.
Proof.
  intros H. rewrite <- delta_explore. rewrite (Qmult_comm delta).
  apply Qmult_le_compat_r; [| apply delta_nonneg].
  rewrite <- Zle_Qle. exact H.
Qed.

(** C5.  With FIN_EPS <= INIT_EPS and EXPLORE >= 1: every iteration of the
    step loop, whether it learns or not, replaces [epsilon] by
    [max(FIN_EPS, epsilon - (INIT_EPS - FIN_EPS) / EXPLORE)], and nothing
    else in the loop changes it; along the run [epsilon] never increases
    and never drops below FIN_EPS; it is the linear value
    [INIT_EPS - step * (INIT_EPS - FIN_EPS) / EXPLORE] while the step count
    is at most EXPLORE, and it is FIN_EPS itself from step EXPLORE on. *)
Theorem epsilon_schedule :
  (forall (st st' : state) (brk : bool),
     loop_body hp st = inr (st', brk) ->
     epsilon st' =
       py_max (FIN_EPS hp)
         (epsilon st - (INIT_EPS hp - FIN_EPS hp) / inject_Z (EXPLORE hp))) /\
  (forall st : state, epsilon (begin_episode hp st) = epsilon st) /\
  (forall st st' : state,
     end_episode hp st = inr st' -> epsilon st' = epsilon st) /\
  (forall (ph : phase) (st : state),
     reach hp ph st -> FIN_EPS hp <= epsilon st) /\
  (forall (n : nat) (st st' : state) (brk : bool),
     reach hp (Inside (S n)) st ->
     loop_body hp st = inr (st', brk) ->
     epsilon st' <= epsilon st) /\
  (forall (ph : phase) (st : state),
     reach hp ph st ->
     (step_counter st <= EXPLORE hp)%Z ->
     epsilon st ==
       INIT_EPS hp -
       inject_Z (step_counter st) *
         ((INIT_EPS hp - FIN_EPS hp) / inject_Z (EXPLORE hp))) /\
  (forall (ph : phase) (st : state),
     reach hp ph st ->
     (EXPLORE hp <= step_counter st)%Z ->
     epsilon st = FIN_EPS hp).
Proof.
  pose proof delta_nonneg as Hd.
  split; [| split; [| split; [| split; [| split; [| split]]]]].
  - intros st st' brk H. apply loop_body_fields in H.
    destruct H as (_ & _ & _ & _ & _ & _ & He & _).
    apply eps_decay_inr in He. exact He.
  - intros st. apply (begin_episode_fields C hp st).
  - intros st st' H. apply end_episode_fields in H. tauto.
  - intros ph st R. apply (eps_invariant ph st R).
  - intros n st st' brk R H.
    destruct (eps_invariant _ _ R) as (I1 & _).
    apply loop_body_fields in H.
    destruct H as (_ & _ & _ & _ & _ & _ & He & _).
    apply eps_decay_inr in He. fold (eps_step hp) in He. rewrite He.
    destruct (py_max_cases (FIN_EPS hp) (epsilon st - delta))
      as [[L ->] | [L ->]]; lra.
  - intros ph st R Hn. fold (eps_step hp).
    destruct (eps_invariant _ _ R) as (I1 & I2 & I3 & _).
    pose proof (steps_times_delta _ Hn).
    destruct I3; lra.
  - intros ph st R Hn.
    destruct (eps_invariant _ _ R) as (I1 & I2 & I3 & I4).
    pose proof (explore_times_delta _ Hn).
    destruct I4 as [E | L]; [lia | exact E |].
    destruct I3; lra.
Qed.

End Epsilon.

Section Beta.

Hypothesis per_on : PER hp = true.
Hypothesis beta0_range : 0 <= PER_BETA hp <= 1.

Lemma beta_anneal_inr (n : Z) (b b' : Q) :
  beta_anneal hp n b = inr b' ->
  b' = b + inject_Z n / inject_Z (TOTAL_TIMESTEPS hp) * (1 - b).
Proof.
  unfold beta_anneal. rewrite per_on. intros H. inv_bind H.
  apply py_div_inr in Hv. destruct Hv as [_ ->].
  inversion H. reflexivity.
Qed.

Lemma fraction_nonneg (n t : Z) :
  (0 <= n)%Z -> (1 <= t)%Z -> 0 <= inject_Z n / inject_Z t.
Proof.
  intros Hn Ht. apply Qle_shift_div_l; [apply inject_Z_pos; exact Ht |].
  rewrite Qmult_0_l. change 0 with (inject_Z 0). rewrite <- Zle_Qle. exact Hn.
Qed.

Lemma fraction_le_one (n t : Z) :
  (n <= t)%Z -> (1 <= t)%Z -> inject_Z n / inject_Z t <= 1.
Proof.
  intros Hn Ht. apply Qle_shift_div_r; [apply inject_Z_pos; exact Ht |].
  rewrite Qmult_1_l. rewrite <- Zle_Qle. exact Hn.
Qed.

Lemma fraction_full (t : Z) : (1 <= t)%Z -> inject_Z t / inject_Z t == 1.
Proof.
  intros Ht. field. pose proof (inject_Z_pos _ Ht). lra.
Qed.

Lemma beta_invariant (ph : phase) (st : state) :
  reach hp ph st ->
  (ph <> Outside \/ (1 <= step_counter st)%Z ->
   (1 <= TOTAL_TIMESTEPS hp)%Z) /\
  0 <= beta st <= 1 /\
  ((1 <= TOTAL_TIMESTEPS hp)%Z ->
   (TOTAL_TIMESTEPS hp <= step_counter st)%Z -> beta st == 1).
Proof.
  intros R. pose proof (step_counter_nonneg ph st R) as Hpos. revert Hpos.
  induction R as [| st R IH Hlt | n st st' brk R IH Hb | st st' R IH He];
    intros Hpos.
  - destruct init_state_fields as (E1 & _ & _ & E2 & _).
    rewrite E1, E2. split; [| split].
    + intros [N | N]; [contradiction | lia].
    + exact beta0_range.
    + intros; lia.
  - pose proof (step_counter_nonneg _ _ R) as Hp0.
    destruct (begin_episode_fields C hp st)
      as (E1 & _ & _ & _ & _ & _ & _ & E2 & _).
    rewrite E1, E2. destruct (IH Hp0) as (_ & I2 & _).
    split; [intros _; lia |]. split; [exact I2 |]. intros; lia.
  - pose proof (step_counter_nonneg _ _ R) as Hp0.
    destruct (IH Hp0) as (I1 & I2 & I3).
    assert (Ht : (1 <= TOTAL_TIMESTEPS hp)%Z)
      by (apply I1; left; discriminate).
    apply loop_body_fields in Hb.
    destruct Hb as (_ & E1 & _ & _ & _ & _ & _ & Hbeta & _).
    apply beta_anneal_inr in Hbeta. rewrite E1, Hbeta.
    split; [intros _; exact Ht |].
    destruct (Z_le_gt_dec (TOTAL_TIMESTEPS hp) (step_counter st)) as [G | G].
    + specialize (I3 Ht G). rewrite I3.
      split; [lra |]. intros _ _. ring.
    + pose proof (fraction_nonneg (step_counter st + 1)
                    (TOTAL_TIMESTEPS hp) ltac:(lia) Ht) as F0.
      pose proof (fraction_le_one (step_counter st + 1)
                    (TOTAL_TIMESTEPS hp) ltac:(lia) Ht) as F1.
      split; [nra |]. intros _ G'.
      assert (E : (step_counter st + 1 = TOTAL_TIMESTEPS hp)%Z) by lia.
      rewrite E, (fraction_full _ Ht). ring.
  - pose proof (step_counter_nonneg _ _ R) as Hp0.
    destruct (IH Hp0) as (I1 & I2 & I3).
    apply end_episode_fields in He.
    destruct He as (_ & _ & _ & E1 & _ & _ & _ & E2 & _).
    rewrite E1, E2. split; [| split; assumption].
    intros _. apply I1. left. discriminate.
Qed.

(** C6.  In prioritized mode, with PER_BETA between 0 and 1: every
    iteration of the step loop replaces [beta] by
    [beta + (step_counter / TOTAL_TIMESTEPS) * (1 - beta)], and nothing
    else in the loop changes it; along the run [beta] stays between 0 and
    1 and never decreases; each iteration multiplies the distance [1 - beta]
    by [1 - step_counter / TOTAL_TIMESTEPS], and [beta] is 1 once the step
    count has reached TOTAL_TIMESTEPS. *)
Theorem beta_schedule :
  (forall (st st' : state) (brk : bool),
     loop_body hp st = inr (st', brk) ->
     beta st' =
       beta st +
       inject_Z (step_counter st + 1) / inject_Z (TOTAL_TIMESTEPS hp) *
         (1 - beta st)) /\
  (forall st : state, beta (begin_episode hp st) = beta st) /\
  (forall st st' : state,
     end_episode hp st = inr st' -> beta st' = beta st) /\
  (forall (ph : phase) (st : state),
     reach hp ph st -> 0 <= beta st <= 1) /\
  (forall (n : nat) (st st' : state) (brk : bool),
     reach hp (Inside (S n)) st ->
     loop_body hp st = inr (st', brk) ->
     beta st <= beta st' /\
     1 - beta st' ==
       (1 - inject_Z (step_counter st') / inject_Z (TOTAL_TIMESTEPS hp)) *
       (1 - beta st)) /\
  (forall (ph : phase) (st : state),
     reach hp ph st ->
     (1 <= TOTAL_TIMESTEPS hp)%Z ->
     (TOTAL_TIMESTEPS hp <= step_counter st)%Z ->
     beta st == 1).
Proof.
  split; [| split; [| split; [| split; [| split]]]].
  - intros st st' brk H. apply loop_body_fields in H.
    destruct H as (_ & _ & _ & _ & _ & _ & _ & Hbeta & _).
    apply beta_anneal_inr in Hbeta. exact Hbeta.
  - intros st. apply (begin_episode_fields C hp st).
  - intros st st' H. apply end_episode_fields in H. tauto.
  - intros ph st R. apply (beta_invariant ph st R).
  - intros n st st' brk R H.
    destruct (beta_invariant _ _ (reach_body R H)) as (_ & J2 & _).
    destruct (beta_invariant _ _ R) as (I1 & I2 & I3).
    assert (Ht : (1 <= TOTAL_TIMESTEPS hp)%Z)
      by (apply I1; left; discriminate).
    pose proof (step_counter_nonneg _ _ R) as Hp0.
    apply loop_body_fields in H.
    destruct H as (_ & E1 & _ & _ & _ & _ & _ & Hbeta & _).
    apply beta_anneal_inr in Hbeta. rewrite E1. rewrite Hbeta in *.
    pose proof (fraction_nonneg (step_counter st + 1)
                  (TOTAL_TIMESTEPS hp) ltac:(lia) Ht) as F0.
    split; [nra | ring].
  - intros ph st R Ht Hn. apply (beta_invariant ph st R); assumption.
Qed.

End Beta.

End ScheduleFacts.

(** ** Whole runs *)

Section RunFacts.

Variable C : collaborators.
Variable hp : hparams.

Local Abbreviation state := (train_state C).

Lemma for_steps_reach (n : nat) :
  forall st st' : state,
    reach hp (enter_for n) st ->
    for_steps hp n st = inr st' ->
    reach hp Leaving st'.
Proof.
  induction n as [| n IH]; simpl; intros st st' R H.
  - inversion H. subst. exact R.
  - inv_bind H. destruct v as [st1 brk].
    pose proof (reach_body R Hv) as R1.
    destruct brk; simpl in R1.
    + inversion H. subst. exact R1.
    + apply (IH st1 st'); assumption.
Qed.

Lemma episode_reach (st st' : state) :
  reach hp Outside st ->
  (step_counter st < TOTAL_TIMESTEPS hp)%Z ->
  episode hp st = inr st' ->
  reach hp Outside st'.
Proof.
  intros R Hlt H. unfold episode in H. inv_bind H.
  apply (reach_end (st := v)); [| exact H].
  apply (for_steps_reach _ _ _ (reach_begin R Hlt) Hv).
Qed.

(** The states in which [main] returns are states of the step relation. *)
Lemma main_loop_reach (fuel : nat) :
  forall st st' : state,
    reach hp Outside st ->
    main_loop hp fuel st = Some (inr st') ->
    reach hp Outside st' /\ (TOTAL_TIMESTEPS hp <= step_counter st')%Z.
Proof.
  induction fuel as [| f IH]; simpl; intros st st' R H;
    destruct (Z.ltb_spec (step_counter st) (TOTAL_TIMESTEPS hp)) as [L | L];
    try discriminate;
    try (inversion H; subst; split; [exact R | lia]).
  destruct (episode hp st) as [e | st1] eqn:E; [discriminate |].
  apply (IH st1 st'); [| exact H].
  apply (episode_reach st st1); assumption.
Qed.

Lemma for_steps_count (n : nat) :
  forall st st' : state,
    for_steps hp n st = inr st' ->
    (step_counter st <= step_counter st' <= step_counter st + Z.of_nat n)%Z /\
    (n <> O -> (step_counter st + 1 <= step_counter st')%Z).
Proof.
  induction n as [| n IH]; simpl for_steps; intros st st' H.
  - inversion H. subst. split; [simpl; lia | intros N; contradiction].
  - inv_bind H. destruct v as [st1 brk].
    apply loop_body_fields in Hv. destruct Hv as (_ & E & _).
    destruct brk.
    + inversion H. subst. split; [lia | intros _; lia].
    + apply IH in H. destruct H as (A & _). split; [lia | intros _; lia].
Qed.

Lemma episode_count (st st' : state) :
  (1 <= N_STEPS hp)%Z ->
  episode hp st = inr st' ->
  (step_counter st + 1 <= step_counter st' <= step_counter st + N_STEPS hp)%Z.
Proof.
  intros HN H. unfold episode in H. inv_bind H.
  apply for_steps_count in Hv. destruct Hv as (A & B).
  apply end_episode_fields in H. destruct H as (_ & _ & _ & E & _).
  destruct (begin_episode_fields C hp st) as (E0 & _).
  rewrite E0 in A, B. rewrite E.
  assert (N0 : Z.to_nat (N_STEPS hp) <> O) by lia.
  specialize (B N0). lia.
Qed.

Lemma main_loop_terminates (fuel : nat) :
  (1 <= N_STEPS hp)%Z ->
  forall st : state,
    (TOTAL_TIMESTEPS hp - step_counter st <= Z.of_nat fuel)%Z ->
    exists r,
      main_loop hp fuel st = Some r /\
      forall st', r = inr st' ->
        (TOTAL_TIMESTEPS hp <= step_counter st')%Z /\
        (step_counter st' <=
         Z.max (step_counter st) (TOTAL_TIMESTEPS hp + N_STEPS hp - 1))%Z.
Proof.
  intros HN. induction fuel as [| f IH]; intros st Hf; simpl main_loop;
    destruct (Z.ltb_spec (step_counter st) (TOTAL_TIMESTEPS hp)) as [L | L];
    try (exists (inr st); split; [reflexivity |];
         intros st' E; inversion E; subst; lia).
  - lia.
  - destruct (episode hp st) as [e | st1] eqn:E.
    + exists (inl e). split; [reflexivity | intros st' N; discriminate].
    + pose proof (episode_count _ _ HN E) as Hc.
      destruct (IH st1) as (r & Hr & Hb); [lia |].
      exists r. split; [exact Hr |].
      intros st' Er. specialize (Hb st' Er). lia.
Qed.

(** C7 (amended).  With N_STEPS >= 1 the training loop terminates (with a
    final state or with the exception a collaborator call or a division
    raised): every fuel of at least TOTAL_TIMESTEPS is enough.  The budget
    is tested between episodes only: in the final state the step count is
    at least TOTAL_TIMESTEPS and less than TOTAL_TIMESTEPS + N_STEPS. *)
Theorem main_terminates (fuel : nat) :
  (1 <= N_STEPS hp)%Z ->
  (TOTAL_TIMESTEPS hp <= Z.of_nat fuel)%Z ->
  exists r,
    main C hp fuel = Some r /\
    forall st, r = inr st ->
      (TOTAL_TIMESTEPS hp <= step_counter st
       < Z.max 0 (TOTAL_TIMESTEPS hp) + N_STEPS hp)%Z.
Proof.
  intros HN Hf. unfold main.
  destruct (init_state_fields C hp) as (E0 & _).
  destruct (main_loop_terminates fuel HN (init_state C hp)) as (r & Hr & Hb).
  - rewrite E0. lia.
  - exists r. split; [exact Hr |].
    intros st Er. specialize (Hb st Er). rewrite E0 in Hb. lia.
Qed.

Lemma reach_resets (ph : phase) (st : state) :
  reach hp ph st -> resets_use (env_seed C hp) (env_calls st).
Proof.
  induction 1 as [| st _ IH _ | n st st' brk _ IH Hb | st st' _ IH He].
  - destruct (init_state_fields C hp) as (_ & _ & _ & _ & -> & _).
    constructor.
  - destruct (begin_episode_fields C hp st)
      as (_ & _ & _ & _ & _ & _ & _ & _ & ->).
    constructor; [reflexivity | exact IH].
  - apply loop_body_fields in Hb.
    destruct Hb as (_ & _ & _ & _ & _ & _ & _ & _ & (a & ->) & _).
    constructor; [exact I | exact IH].
  - apply end_episode_fields in He. apply He. exact IH.
Qed.

End RunFacts.

Lemma main_loop_diverges (C : collaborators) (hp : hparams) :
  (N_STEPS hp <= 0)%Z ->
  IS_LR_DECAY hp = false ->
  PLOT_INTERVAL hp <> 0%Z ->
  forall (fuel : nat) (st : train_state C),
    (step_counter st < TOTAL_TIMESTEPS hp)%Z ->
    main_loop hp fuel st = None.
Proof.
  intros HN Hlr Hp. induction fuel as [| f IH]; intros st Hlt; simpl;
    destruct (Z.ltb_spec (step_counter st) (TOTAL_TIMESTEPS hp)) as [L | L];
    try lia; try reflexivity.
  assert (E : exists st1, episode hp st = inr st1 /\
                          step_counter st1 = step_counter st).
  { unfold episode. replace (Z.to_nat (N_STEPS hp)) with O by lia. simpl.
    unfold end_episode, lr_decay, eval_due, py_mod. rewrite Hlr. simpl.
    destruct (Z.eqb_spec (PLOT_INTERVAL hp) 0) as [N | _]; [contradiction |].
    simpl. eexists. split; [reflexivity |].
    destruct (_ =? 0)%Z.
    - destruct (evaluate_fields C hp (accumulate (begin_episode hp st)))
        as (_ & _ & _ & -> & _).
      simpl. apply (begin_episode_fields C hp st).
    - simpl. apply (begin_episode_fields C hp st). }
  destruct E as (st1 & -> & E1). apply IH. lia.
Qed.

(** ** The statements at work on the small runs *)

Import Toy.

Lemma third_step_runs :
  loop_body toy_hp third_step = inr (after_third_step, false).
Proof. vm_compute. reflexivity. Qed.


Lemma after_first_episode_reach : reach toy_hp Outside after_first_episode.
Proof.
  apply (episode_reach quiet toy_hp (init_state quiet toy_hp)).
  - apply reach_init.
  - vm_compute. reflexivity.
  - vm_compute. reflexivity.
Qed.

Lemma final_state_reach : reach toy_hp Outside final_state.
Proof.
  apply (main_loop_reach quiet toy_hp 3 (init_state quiet toy_hp)).
  - apply reach_init.
  - vm_compute. reflexivity.
Qed.

Lemma target_sync_frame_witness :
  loop_body toy_hp third_step = inr (after_third_step, false) /\
  syncs toy_hp third_step = true /\
  lstep_counter after_third_step = 2%Z /\
  state_dict (target_qnet after_third_step)
  = state_dict (online_qnet third_step).
Proof.
  pose proof third_step_runs as H.
  destruct (proj1 (target_sync_frame quiet toy_hp) _ _ _ H) as (_ & B & _).
  split; [exact H |]. split; [vm_compute; reflexivity |].
  split; [vm_compute; reflexivity |].
  apply B. vm_compute. reflexivity.
Defined.

Lemma learning_gate_witness :
  loop_body toy_hp third_step = inr (after_third_step, false) /\
  (lstep_counter after_third_step = (lstep_counter third_step + 1)%Z <->
   (BATCH_SIZE toy_hp < counter quiet (exp_replay (stored third_step)))%Z /\
   (UPDATE_STEPS toy_hp | step_counter third_step + 1)%Z) /\
  (exists targ loss,
     q_targ (DDQN toy_hp) (GAMMA toy_hp)
       (forward quiet (state_dict (online_qnet third_step)))
       (forward quiet (state_dict (target_qnet after_third_step)))
       (fst (drawn toy_hp third_step)) = inr targ /\
     td_loss
       (map (fun x =>
               forward quiet (state_dict (online_qnet third_step)) (b_s x))
          (fst (drawn toy_hp third_step)))
       (fst (drawn toy_hp third_step)) targ = inr loss /\
     online_qnet after_third_step =
       (let '(p, o) :=
          optimizer_step quiet (state_dict (online_qnet third_step))
            (optimizer (online_qnet third_step))
            (fst (drawn toy_hp third_step)) targ (PER toy_hp) in
        mkQnet p o) /\
     rng after_third_step = snd (drawn toy_hp third_step)) /\
  (counter quiet (exp_replay (stored first_step)) <= BATCH_SIZE toy_hp)%Z /\
  exists (st' : train_state quiet) (brk : bool),
    loop_body toy_hp first_step = inr (st', brk) /\
    lstep_counter st' = lstep_counter first_step /\
    online_qnet st' = online_qnet first_step /\
    target_qnet st' = target_qnet first_step.
Proof.
  pose proof third_step_runs as H.
  split; [exact H |].
  split; [exact (proj1 (proj1 (learning_gate quiet toy_hp) _ _ _ H)) |].
  split.
  { assert (E : lstep_counter after_third_step
                = (lstep_counter third_step + 1)%Z)
      by (vm_compute; reflexivity).
    destruct (proj2 (proj2 (proj1 (learning_gate quiet toy_hp) _ _ _ H)) E)
      as (targ & loss & G1 & G2 & G3 & G4 & _).
    exists targ, loss.
    split; [exact G1 |]. split; [exact G2 |]. split; [exact G3 | exact G4]. }
  assert (L : (counter quiet (exp_replay (stored first_step))
               <= BATCH_SIZE toy_hp)%Z) by (vm_compute; discriminate).
  split; [exact L |].
  apply (proj2 (learning_gate quiet toy_hp) first_step L).
  - discriminate.
  - intros _. discriminate.
Defined.

Lemma epsilon_schedule_witness :
  FIN_EPS toy_hp <= INIT_EPS toy_hp /\
  (1 <= EXPLORE toy_hp)%Z /\
  reach toy_hp Outside after_first_episode /\
  (EXPLORE toy_hp <= step_counter after_first_episode)%Z /\
  epsilon after_first_episode = FIN_EPS toy_hp.
Proof.
  assert (H1 : FIN_EPS toy_hp <= INIT_EPS toy_hp) by (vm_compute; discriminate).
  assert (H2 : (1 <= EXPLORE toy_hp)%Z) by (vm_compute; discriminate).
  assert (H3 : (EXPLORE toy_hp <= step_counter after_first_episode)%Z)
    by (vm_compute; discriminate).
  pose proof after_first_episode_reach as R.
  split; [exact H1 |]. split; [exact H2 |]. split; [exact R |].
  split; [exact H3 |].
  destruct (epsilon_schedule quiet toy_hp H1 H2)
    as (_ & _ & _ & _ & _ & _ & E).
  exact (E Outside after_first_episode R H3).
Defined.

Lemma beta_schedule_witness :
  PER toy_hp = true /\
  0 <= PER_BETA toy_hp <= 1 /\
  reach toy_hp Outside final_state /\
  (TOTAL_TIMESTEPS toy_hp <= step_counter final_state)%Z /\
  0 <= beta final_state <= 1 /\
  beta final_state == 1.
Proof.
  assert (H1 : PER toy_hp = true) by reflexivity.
  assert (H2 : 0 <= PER_BETA toy_hp <= 1)
    by (split; vm_compute; discriminate).
  assert (H3 : (TOTAL_TIMESTEPS toy_hp <= step_counter final_state)%Z)
    by (vm_compute; discriminate).
  pose proof final_state_reach as R.
  destruct (beta_schedule quiet toy_hp H1 H2) as (_ & _ & _ & B & _ & E).
  split; [exact H1 |]. split; [exact H2 |]. split; [exact R |].
  split; [exact H3 |]. split; [exact (B Outside final_state R) |].
  apply (E Outside final_state R); [vm_compute; discriminate | exact H3].
Defined.

Lemma main_terminates_witness :
  (1 <= N_STEPS toy_hp)%Z /\
  (TOTAL_TIMESTEPS toy_hp <= Z.of_nat 3)%Z /\
  exists r,
    main quiet toy_hp 3 = Some r /\
    forall st, r = inr st ->
      (TOTAL_TIMESTEPS toy_hp <= step_counter st
       < Z.max 0 (TOTAL_TIMESTEPS toy_hp) + N_STEPS toy_hp)%Z.
Proof.
  assert (H1 : (1 <= N_STEPS toy_hp)%Z) by (vm_compute; discriminate).
  assert (H2 : (TOTAL_TIMESTEPS toy_hp <= Z.of_nat 3)%Z)
    by (vm_compute; discriminate).
  split; [exact H1 |]. split; [exact H2 |].
  exact (main_terminates quiet toy_hp 3 H1 H2).
Defined.

(** C7, as stated, fails: with a budget of 3 steps and episodes of 2
    steps the run makes 4 environment steps. *)
Lemma steps_exceed_budget :
  main quiet toy_hp 3 = Some (inr final_state) /\
  TOTAL_TIMESTEPS toy_hp = 3%Z /\
  step_counter final_state = 4%Z.
Proof.
  split; [vm_compute; reflexivity |].
  split; vm_compute; reflexivity.
Qed.




(** * Further properties of [train.py] *)

(** ** The TD target and the loss of the learning update *)

Lemma mapM_inr_cons {A B : Type} (f : A -> M B) (a : A) (l : list A)
  (bs : list B) :
  mapM f (a :: l) = inr bs ->
  exists b bs', f a = inr b /\ mapM f l = inr bs' /\ bs = b :: bs'.
Proof.
  simpl. intros H. inv_bind H. inv_bind H. inversion H. subst. eauto.
Qed.

Lemma q_targ_of_double_le_vanilla (gamma : Q)
  (online target : observation -> list Q) (x : sample) (y1 y2 : Q) :
  0 <= gamma ->
  b_d x <= 1 ->
  q_targ_of true gamma online target x = inr y1 ->
  q_targ_of false gamma online target x = inr y2 ->
  y1 <= y2.
Proof.
  intros Hg Hd H1 H2. unfold q_targ_of, q_ns_of in H1, H2.
  inv_bind H1. inv_bind H2. inv_bind Hv. inv_bind Hv0.
  inversion H1. inversion H2. inversion Hv0. subst. clear H1 H2 Hv0.
  destruct v2 as [m i]. apply torch_max_spec in Hv2. destruct Hv2 as [_ Hm].
  unfold torch_gather in Hv.
  destruct (nth_error (target (b_ns x)) (snd v1)) as [q |] eqn:G;
    [| discriminate].
  inversion Hv. subst. apply nth_error_In in G. apply Hm in G. simpl.
  assert (0 <= gamma * (1 - b_d x)) by nra. nra.
Qed.

(** X1.  In exact arithmetic on finite values, for a discount that is not
    negative and done flags of at most 1, the double-mode TD target of
    every sample is at most its vanilla-mode target: evaluating the action the online network prefers cannot exceed
    the maximum of the target network's values. *)
Theorem double_target_le_vanilla (gamma : Q)
  (online target : observation -> list Q) (b : batch) (t1 t2 : list Q) :
  0 <= gamma ->
  (forall x, In x b -> b_d x <= 1) ->
  q_targ true gamma online target b = inr t1 ->
  q_targ false gamma online target b = inr t2 ->
  Forall2 Qle t1 t2.
Proof.
  intros Hg. unfold q_targ. revert t1 t2.
  induction b as [| x b IH]; intros t1 t2 Hd H1 H2.
  - inversion H1. inversion H2. constructor.
  - apply mapM_inr_cons in H1. destruct H1 as (y1 & r1 & A1 & B1 & ->).
    apply mapM_inr_cons in H2. destruct H2 as (y2 & r2 & A2 & B2 & ->).
    constructor.
    + apply (q_targ_of_double_le_vanilla gamma online target x);
        try assumption. apply Hd. left. reflexivity.
    + apply IH; try assumption. intros z Hz. apply Hd. right. exact Hz.
Qed.

Lemma double_target_le_vanilla_witness :
  0 <= 99 # 100 /\
  (forall x, In x disagreeing_batch -> b_d x <= 1) /\
  q_targ true (99 # 100) disagreeing_online disagreeing_target
    disagreeing_batch = inr [0 + (99 # 100) * (1 - 0) * 0] /\
  q_targ false (99 # 100) disagreeing_online disagreeing_target
    disagreeing_batch = inr [0 + (99 # 100) * (1 - 0) * 1] /\
  Forall2 Qle [0 + (99 # 100) * (1 - 0) * 0] [0 + (99 # 100) * (1 - 0) * 1].
Proof.
  assert (H0 : 0 <= 99 # 100) by (vm_compute; discriminate).
  assert (H1 : forall x, In x disagreeing_batch -> b_d x <= 1).
  { intros x [<- | []]. vm_compute. discriminate. }
  split; [exact H0 |]. split; [exact H1 |].
  split; [reflexivity |]. split; [reflexivity |].
  apply (double_target_le_vanilla (99 # 100) disagreeing_online
           disagreeing_target disagreeing_batch); try assumption; reflexivity.
Defined.

Lemma Qsquare_nonneg (q : Q) : 0 <= q * q.
Proof.
  destruct (Qlt_le_dec q 0) as [L | L].
  - assert (E : q * q == (- q) * (- q)) by ring. rewrite E.
    apply Qmult_le_0_compat; lra.
  - apply Qmult_le_0_compat; exact L.
Qed.

(** X2.  When the elementwise loss of line 148 is computed, it has one
    entry per sample of the batch and no entry is negative; so the values
    handed to [update_priorities] in prioritized mode are never negative. *)
Theorem td_loss_nonneg (q_pred : list (list Q)) :
  forall (b : batch) (targ ls : list Q),
    td_loss q_pred b targ = inr ls ->
    length ls = length b /\ Forall (fun l => 0 <= l) ls.
Proof.
  induction q_pred as [| row q_pred IH]; intros b targ ls H.
  - destruct b; destruct targ; simpl in H; try discriminate.
    inversion H. split; [reflexivity | constructor].
  - destruct b as [| x b]; destruct targ as [| y targ]; simpl in H;
      try discriminate.
    inv_bind H. inv_bind H. inversion H. subst. clear H.
    destruct (IH _ _ _ Hv0) as (L & P).
    split; [simpl; congruence |].
    constructor; [apply Qsquare_nonneg | exact P].
Qed.

Lemma td_loss_nonneg_witness :
  td_loss [[1; 2]] disagreeing_batch [3] = inr [(1 - 3) * (1 - 3)] /\
  length [(1 - 3) * (1 - 3)] = length disagreeing_batch /\
  Forall (fun l => 0 <= l) [(1 - 3) * (1 - 3)].
Proof.
  assert (H : td_loss [[1; 2]] disagreeing_batch [3]
              = inr [(1 - 3) * (1 - 3)]) by reflexivity.
  split; [exact H |].
  exact (td_loss_nonneg [[1; 2]] disagreeing_batch [3] _ H).
Defined.

(** ** Counters along the run *)

Section CounterFacts.

Variable C : collaborators.
Variable hp : hparams.

Local Abbreviation state := (train_state C).

Lemma lstep_counter_nonneg (ph : phase) (st : state) :
  reach hp ph st -> (0 <= lstep_counter st)%Z.
Proof.
  induction 1 as [| st _ IH _ | n st st' brk _ IH Hb | st st' _ IH He].
  - destruct (init_state_fields C hp) as (_ & -> & _). lia.
  - destruct (begin_episode_fields C hp st) as (_ & -> & _). exact IH.
  - apply loop_body_fields in Hb. destruct Hb as (_ & _ & -> & _).
    destruct (learns hp st); lia.
  - apply end_episode_fields in He.
    destruct He as (_ & _ & _ & _ & -> & _). exact IH.
Qed.

(** X3.  With UPDATE_STEPS >= 1, the number of learning updates made so
    far is never negative and never more than the number of environment
    steps divided by UPDATE_STEPS. *)
Theorem updates_bounded_by_steps (ph : phase) (st : state) :
  (1 <= UPDATE_STEPS hp)%Z ->
  reach hp ph st ->
  (0 <= lstep_counter st)%Z /\
  (lstep_counter st * UPDATE_STEPS hp <= step_counter st)%Z.
Proof.
  intros HU R. split; [exact (lstep_counter_nonneg ph st R) |].
  induction R as [| st R IH _ | n st st' brk R IH Hb | st st' R IH He].
  - destruct (init_state_fields C hp) as (-> & -> & _). lia.
  - destruct (begin_episode_fields C hp st) as (-> & -> & _). exact IH.
  - apply loop_body_fields in Hb.
    destruct Hb as (Hdue & -> & -> & _).
    apply learn_due_spec in Hdue.
    destruct (stored_fields C st) as (S1 & _). rewrite S1 in Hdue.
    destruct (learns hp st).
    + destruct Hdue as [Hd _]. destruct (Hd eq_refl) as (_ & k & Hk).
      pose proof (lstep_counter_nonneg _ _ R) as H0.
      assert (lstep_counter st < k)%Z by nia. nia.
    + lia.
  - apply end_episode_fields in He.
    destruct He as (_ & _ & _ & -> & -> & _). exact IH.
Qed.

(** X4.  With UPDATE_TARGET >= 1: until UPDATE_TARGET learning updates
    have been made the target network is the object it was on entry to
    the loop, holding the initial parameters of the online network; and
    as long as no learning update has been made the online network holds
    its initial parameters too. *)
Theorem initial_parameters_kept (ph : phase) (st : state) :
  (1 <= UPDATE_TARGET hp)%Z ->
  reach hp ph st ->
  ((lstep_counter st < UPDATE_TARGET hp)%Z ->
   target_qnet st = target_qnet (init_state C hp) /\
   state_dict (target_qnet st)
   = state_dict (online_qnet (init_state C hp))) /\
  (lstep_counter st = 0%Z ->
   state_dict (online_qnet st) = state_dict (online_qnet (init_state C hp))).
Proof.
  intros HU R.
  assert (G : ((lstep_counter st < UPDATE_TARGET hp)%Z ->
               target_qnet st = target_qnet (init_state C hp)) /\
              (lstep_counter st = 0%Z ->
               state_dict (online_qnet st)
               = state_dict (online_qnet (init_state C hp)))).
  { induction R as [| st R IH _ | n st st' brk R IH Hb | st st' R IH He].
    - split; reflexivity.
    - destruct (begin_episode_fields C hp st)
        as (_ & -> & _ & -> & -> & _). exact IH.
    - pose proof (lstep_counter_nonneg _ _ R) as H0.
      pose proof (syncs_spec C hp _ _ _ Hb) as Hs.
      apply loop_body_fields in Hb.
      destruct Hb as (_ & _ & HL & _ & Ht & Hq & _).
      destruct IH as [IH1 IH2]. split.
      + intros Hlt. rewrite Ht.
        destruct (syncs hp st).
        * destruct Hs as [Hs _]. destruct (Hs eq_refl) as (E & k & Hk).
          exfalso. assert (0 < k)%Z by nia. assert (1 <= k)%Z by lia. nia.
        * apply IH1. destruct (learns hp st); lia.
      + intros E0. destruct (learns hp st); [lia |].
        destruct (Hq eq_refl) as [-> _]. apply IH2. lia.
    - apply end_episode_fields in He.
      destruct He as (_ & E1 & E2 & _ & E3 & _).
      rewrite E1, E2, E3. exact IH. }
  destruct G as [G1 G2]. split; [| exact G2].
  intros Hlt. specialize (G1 Hlt). split; [exact G1 |].
  rewrite G1. destruct (init_state_fields C hp) as (_ & _ & _ & _ & _ & ->).
  reflexivity.
Qed.

End CounterFacts.

(** ** Zeros where the loop divides *)

Section ZeroFacts.

Variable C : collaborators.
Variable hp : hparams.

Local Abbreviation state := (train_state C).

Lemma decay_zero_explore (st : state) :
  EXPLORE hp = 0%Z -> decay hp st = inl ZeroDivisionError.
Proof.
  intros E. unfold decay, eps_decay, py_div. rewrite E. reflexivity.
Qed.

Lemma loop_body_raises (st : state) :
  (forall st2 : state, decay hp st2 = inl ZeroDivisionError) ->
  (exists e, loop_body hp st = inl e) /\
  ((counter C (exp_replay (stored st)) <= BATCH_SIZE hp)%Z ->
   loop_body hp st = inl ZeroDivisionError).
Proof.
  intros Hd. unfold loop_body, stored.
  destruct (interact st) as [[st0 a] r]. simpl. unfold after_env_step.
  split.
  - destruct (learn_due hp (record_transition st0 a r)) as [e | due];
      simpl; [eauto |].
    destruct (if due then learn hp (record_transition st0 a r)
              else ret (record_transition st0 a r)) as [e | st2];
      simpl; [eauto |].
    rewrite Hd. simpl. eauto.
  - intros Hc.
    rewrite (learn_due_below C hp (record_transition st0 a r) Hc). simpl.
    rewrite Hd. reflexivity.
Qed.

Lemma first_episode_raises :
  (forall st : state, exists e, episode hp st = inl e) ->
  (1 <= TOTAL_TIMESTEPS hp)%Z ->
  forall fuel : nat, exists e, main C hp (S fuel) = Some (inl e).
Proof.
  intros He HT fuel. unfold main. simpl.
  destruct (init_state_fields C hp) as (E0 & _). rewrite E0.
  destruct (Z.ltb_spec 0 (TOTAL_TIMESTEPS hp)) as [_ | L]; [| lia].
  destruct (He (init_state C hp)) as (e & ->). eauto.
Qed.

(** X5.  With EXPLORE = 0 no iteration of the step loop completes: line
    161 divides by zero (a [ZeroDivisionError], unless the learning update
    of the same iteration has raised first; it is that error whenever the
    buffer's counter is at most BATCH_SIZE).  A run with a positive budget
    and N_STEPS >= 1 therefore ends with an exception in its first
    episode. *)
Theorem zero_explore_raises :
  EXPLORE hp = 0%Z ->
  (forall st : state, exists e, loop_body hp st = inl e) /\
  (forall st : state,
     (counter C (exp_replay (stored st)) <= BATCH_SIZE hp)%Z ->
     loop_body hp st = inl ZeroDivisionError) /\
  ((1 <= TOTAL_TIMESTEPS hp)%Z ->
   (1 <= N_STEPS hp)%Z ->
   forall fuel : nat, exists e, main C hp (S fuel) = Some (inl e)).
Proof.
  intros E.
  assert (Hd : forall st2 : state, decay hp st2 = inl ZeroDivisionError)
    by (intros; apply decay_zero_explore; exact E).
  split; [intros st; apply (loop_body_raises st Hd) |].
  split; [intros st; apply (loop_body_raises st Hd) |].
  intros HT HN. apply first_episode_raises; [| exact HT].
  intros st. unfold episode.
  destruct (Z.to_nat (N_STEPS hp)) as [| k] eqn:EN; [lia |].
  simpl. destruct (proj1 (loop_body_raises (begin_episode hp st) Hd))
    as (e & ->).
  simpl. eauto.
Qed.

Lemma lr_decay_raises_only (st : state) (e : exn) :
  lr_decay hp st = inl e -> e = ZeroDivisionError.
Proof.
  unfold lr_decay, py_div. destruct (IS_LR_DECAY hp); [| discriminate].
  destruct (Qeq_bool _ 0); simpl; intros H; inversion H. reflexivity.
Qed.

(** X6.  With PLOT_INTERVAL = 0 the code that follows the step loop
    always raises [ZeroDivisionError] (line 179, or line 172 before it), so
    no episode completes: a run with a positive budget ends with an
    exception in its first episode, after the steps of that episode have
    been made. *)
Theorem zero_plot_interval_raises :
  PLOT_INTERVAL hp = 0%Z ->
  (forall st : state, end_episode hp st = inl ZeroDivisionError) /\
  ((1 <= TOTAL_TIMESTEPS hp)%Z ->
   forall fuel : nat, exists e, main C hp (S fuel) = Some (inl e)).
Proof.
  intros E.
  assert (He : forall st : state, end_episode hp st = inl ZeroDivisionError).
  { intros st. unfold end_episode.
    destruct (lr_decay hp st) as [e | st1] eqn:L; simpl.
    - apply lr_decay_raises_only in L. rewrite L. reflexivity.
    - unfold eval_due, py_mod. rewrite E. reflexivity. }
  split; [exact He |].
  intros HT. apply first_episode_raises; [| exact HT].
  intros st. unfold episode.
  destruct (for_steps hp _ _) as [e | st1]; simpl; [eauto |].
  rewrite He. eauto.
Qed.

(** X7.  A zero cadence raises as soon as it is used: with
    UPDATE_STEPS = 0 the iteration raises [ZeroDivisionError] once the
    buffer's counter exceeds BATCH_SIZE (line 125), and with
    UPDATE_TARGET = 0 every iteration that is due for a learning update
    raises it (line 128), before anything is sampled. *)
Theorem zero_cadence_raises (st : state) :
  (UPDATE_STEPS hp = 0%Z ->
   (BATCH_SIZE hp < counter C (exp_replay (stored st)))%Z ->
   loop_body hp st = inl ZeroDivisionError) /\
  (UPDATE_TARGET hp = 0%Z ->
   learns hp st = true ->
   loop_body hp st = inl ZeroDivisionError).
Proof.
  unfold learns, loop_body, stored.
  destruct (interact st) as [[st0 a] r]. simpl. unfold after_env_step.
  split.
  - intros E Hc. unfold learn_due, py_mod. rewrite E. simpl in Hc |- *.
    match goal with
    | |- context [(?x <? ?y)%Z] => destruct (Z.ltb_spec x y)
    end; [reflexivity | lia].
  - intros E HL.
    destruct (learn_due hp (record_transition st0 a r)) as [e | due];
      [discriminate |].
    subst due. simpl. unfold learn, sync_due, py_mod. rewrite E. reflexivity.
Qed.

End ZeroFacts.

(** ** The learning rate, the accumulators and the log *)

Section BookFacts.

Variable C : collaborators.
Variable hp : hparams.

Local Abbreviation state := (train_state C).

Lemma stored_keeps (st : state) :
  lr (stored st) = lr st /\ accum (stored st) = accum st.
Proof.
  unfold stored, interact.
  destruct (sample_discrete_action C _ _ _ _ _) as [a g].
  destruct (env_step C _ _) as [e1 r]. simpl. split; reflexivity.
Qed.

Lemma gradient_update_keeps (st st' : state) :
  gradient_update hp st = inr st' ->
  lr st' = lr st /\ accum st' = accum st.
Proof.
  unfold gradient_update.
  destruct (sample_experience C _ _ _ _) as [b g].
  intros H. inv_bind H. inv_bind H.
  destruct (optimizer_step C _ _ _ _ _) as [p o].
  inversion H. subst. simpl. split; reflexivity.
Qed.

Lemma learn_keeps (st st' : state) :
  learn hp st = inr st' ->
  lr st' = lr st /\ accum st' = accum st.
Proof.
  unfold learn. intros H. inv_bind H.
  apply gradient_update_keeps in H. destruct v; simpl in H; exact H.
Qed.

Lemma decay_keeps (st st' : state) :
  decay hp st = inr st' ->
  lr st' = lr st /\ accum st' = accum st.
Proof.
  unfold decay. intros H. inv_bind H. inv_bind H.
  inversion H. subst. simpl. split; reflexivity.
Qed.

Lemma loop_body_keeps (st st' : state) (brk : bool) :
  loop_body hp st = inr (st', brk) ->
  lr st' = lr st /\ accum st' = accum st.
Proof.
  intros H. apply loop_body_inv in H.
  destruct H as (due & st2 & st3 & _ & Hl & Hd & -> & _).
  apply decay_keeps in Hd. destruct Hd as [D1 D2].
  destruct (stored_keeps st) as [S1 S2]. simpl.
  rewrite D1, D2.
  destruct due.
  - apply learn_keeps in Hl. destruct Hl as [L1 L2].
    rewrite L1, L2. split; assumption.
  - inversion Hl. subst. split; assumption.
Qed.

Lemma begin_episode_keeps (st : state) :
  lr (begin_episode hp st) = lr st /\
  accum (begin_episode hp st) = accum st /\
  eps_rew (begin_episode hp st) = 0.
Proof.
  unfold begin_episode. destruct (env_reset C _ _) as [e s0]. simpl.
  repeat split.
Qed.

Lemma eval_loop_resets (model : qnet C) (n : nat) :
  forall e g log s0 r0 r e' g' log',
    eval_loop model n e g log s0 r0 = (r, e', g', log') ->
    exists steps,
      log' = steps ++ log /\
      count_resets steps = O /\
      (length steps <= n)%nat /\
      (n <> O -> (1 <= length steps)%nat) /\
      ((forall e1 a, done (snd (env_step C e1 a)) = false) ->
       length steps = n).
Proof.
  induction n as [| n IH]; simpl; intros e g log s0 r0 r e' g' log' H.
  - inversion H. subst. exists []. repeat split; auto. intros N. contradiction.
  - destruct (sample_discrete_action C _ _ _ _ _) as [a g1].
    destruct (env_step C e a) as [e1 sr] eqn:Es.
    destruct (done sr) eqn:Ed.
    + inversion H. subst. exists [CallStep a]. simpl.
      repeat split; auto; try lia.
      intros Hn. specialize (Hn e a). rewrite Es in Hn. simpl in Hn.
      congruence.
    + apply IH in H. destruct H as (steps & -> & Hc & Hl & _ & Hx).
      exists (steps ++ [CallStep a]). rewrite <- app_assoc. simpl.
      unfold count_resets in *. rewrite filter_app, !length_app. simpl.
      rewrite Hc. repeat split; auto; try lia.
      intros Hn. rewrite (Hx Hn). lia.
Qed.

(** X8.  [eval_model] resets the environment once, with the seed it is
    given, and then steps it at least once (when [max_steps >= 1]) and at
    most [max_steps] times, without any further reset; it makes exactly
    [max_steps] steps when the environment never reports [done], and with
    [max_steps <= 0] it makes no step at all. *)
Theorem eval_model_calls (model : qnet C) (e : env_t C) (g : rng_t C)
  (log : list env_call) (max_steps seed : Z) r e' g' log' :
  eval_model model e g log max_steps seed = (r, e', g', log') ->
  exists steps,
    log' = steps ++ CallReset seed :: log /\
    count_resets steps = O /\
    (Z.of_nat (length steps) <= Z.max 0 max_steps)%Z /\
    ((1 <= max_steps)%Z -> (1 <= length steps)%nat) /\
    ((forall e1 a, done (snd (env_step C e1 a)) = false) ->
     Z.of_nat (length steps) = Z.max 0 max_steps).
Proof.
  unfold eval_model. destruct (env_reset C e seed) as [e0 s0]. intros H.
  apply eval_loop_resets in H.
  destruct H as (steps & -> & Hc & Hl & H1 & Hx).
  exists steps. split; [reflexivity |]. split; [exact Hc |].
  split; [lia |]. split; [intros; apply H1; lia |].
  intros Hn. rewrite (Hx Hn). lia.
Qed.

End BookFacts.

Section EpisodeFacts.

Variable C : collaborators.
Variable hp : hparams.

Local Abbreviation state := (train_state C).

Lemma lr_decay_detail (st st' : state) :
  lr_decay hp st = inr st' ->
  (IS_LR_DECAY hp = false -> lr st' = lr st) /\
  (IS_LR_DECAY hp = true ->
   ~ 1 + LR_DECAY hp * inject_Z (epoch_counter st) == 0 /\
   lr st' = lr st / (1 + LR_DECAY hp * inject_Z (epoch_counter st))) /\
  accum st' = accum st /\
  eps_rew st' = eps_rew st /\
  env (st') = env st /\
  rng st' = rng st.
Proof.
  unfold lr_decay. destruct (IS_LR_DECAY hp); intros H.
  - inv_bind H. apply py_div_inr in Hv. destruct Hv as [Hne ->].
    inversion H. subst. simpl.
    split; [discriminate |]. split; [auto |]. repeat split.
  - inversion H. subst. split; [auto |]. split; [discriminate |].
    repeat split.
Qed.

Lemma evaluate_detail (st : state) :
  lr (evaluate hp st) = lr st /\
  acc_rew (accum (evaluate hp st)) = acc_rew (accum st) /\
  acc_steps (accum (evaluate hp st)) = acc_steps (accum st) /\
  length (acc_eval_rew (accum (evaluate hp st)))
  = S (length (acc_eval_rew (accum st))) /\
  count_resets (env_calls (evaluate hp st))
  = S (count_resets (env_calls st)).
Proof.
  unfold evaluate, eval_model.
  destruct (env_reset C (env st) (env_seed C hp)) as [e0 s0].
  destruct (eval_loop _ _ _ _ _ _ _) as [[[r e] g] log] eqn:E. simpl.
  apply eval_loop_resets in E. destruct E as (steps & -> & Hc & _).
  repeat split.
  - rewrite length_app. simpl. lia.
  - unfold count_resets in *. rewrite filter_app, length_app. simpl.
    rewrite Hc. reflexivity.
Qed.

Lemma end_episode_detail (st st' : state) :
  end_episode hp st = inr st' ->
  PLOT_INTERVAL hp <> 0%Z /\
  (IS_LR_DECAY hp = false -> lr st' = lr st) /\
  (IS_LR_DECAY hp = true ->
   ~ 1 + LR_DECAY hp * inject_Z (epoch_counter st) == 0 /\
   lr st' = lr st / (1 + LR_DECAY hp * inject_Z (epoch_counter st))) /\
  acc_rew (accum st') = acc_rew (accum st) ++ [eps_rew st] /\
  acc_steps (accum st') = acc_steps (accum st) ++ [step_counter st] /\
  length (acc_eval_rew (accum st'))
  = (length (acc_eval_rew (accum st)) +
     (if (epoch_counter st mod PLOT_INTERVAL hp =? 0)%Z then 1 else 0))%nat /\
  count_resets (env_calls st')
  = (count_resets (env_calls st) +
     (if (epoch_counter st mod PLOT_INTERVAL hp =? 0)%Z then 1 else 0))%nat.
Proof.
  unfold end_episode. intros H.
  apply bind_inr in H. destruct H as (st1 & Hlr & H).
  apply bind_inr in H. destruct H as (due & Hdue & H).
  pose proof (lr_decay_fields C hp _ _ Hlr)
    as (_ & _ & _ & F4 & _ & F6 & _ & _ & F9).
  apply lr_decay_detail in Hlr.
  destruct Hlr as (L1 & L2 & L3 & L4 & _).
  unfold eval_due in Hdue.
  apply bind_inr in Hdue. destruct Hdue as (m & Hm & Hdue).
  apply py_mod_inr in Hm. destruct Hm as [Hne ->].
  inversion Hdue as [Hd]. clear Hdue. simpl in Hd. rewrite F6 in Hd.
  inversion H as [H1]. clear H. split; [exact Hne |].
  rewrite Hd. destruct due.
  - destruct (evaluate_detail (accumulate st1)) as (E1 & E2 & E3 & E4 & E5).
    rewrite E1, E2, E3, E4, E5. simpl.
    rewrite L3, L4, F4, F9.
    split; [exact L1 |]. split; [exact L2 |].
    split; [reflexivity |]. split; [reflexivity |]. split; lia.
  - simpl. rewrite L3, L4, F4, F9.
    split; [exact L1 |]. split; [exact L2 |].
    split; [reflexivity |]. split; [reflexivity |]. split; lia.
Qed.

Lemma epoch_counter_nonneg (ph : phase) (st : state) :
  reach hp ph st ->
  (0 <= epoch_counter st)%Z /\ (ph <> Outside -> (1 <= epoch_counter st)%Z).
Proof.
  induction 1 as [| st _ IH _ | n st st' brk _ IH Hb | st st' _ IH He].
  - unfold init_state. destruct (new_net C _ _ _ _ _) as [[p o] g]. simpl.
    split; [lia | intros N; contradiction].
  - destruct (begin_episode_fields C hp st) as (_ & _ & -> & _).
    split; intros; lia.
  - apply loop_body_fields in Hb. destruct Hb as (_ & _ & _ & -> & _).
    destruct IH as [I1 I2]. split; [exact I1 |].
    intros _. apply I2. discriminate.
  - apply end_episode_fields in He.
    destruct He as (_ & _ & _ & _ & _ & -> & _).
    destruct IH as [I1 _]. split; [exact I1 | intros N; contradiction].
Qed.

Lemma init_state_books :
  lr (init_state C hp) = INIT_LR hp /\
  accum (init_state C hp) = mkAccum [] [] [] /\
  epoch_counter (init_state C hp) = 0%Z.
Proof.
  unfold init_state. destruct (new_net C _ _ _ _ _) as [[p o] g]. simpl.
  repeat split.
Qed.

(** X9.  The learning rate changes only at the end of an episode.  With
    IS_LR_DECAY off it is INIT_LR throughout the run.  With IS_LR_DECAY on,
    LR_DECAY >= 0 and INIT_LR >= 0, it stays between 0 and INIT_LR, line 172
    never divides by zero, and each episode end replaces it by
    [lr / (1 + LR_DECAY * epoch_counter)], which is at most the rate
    before. *)
Theorem learning_rate_schedule :
  (forall (st st' : state) (brk : bool),
     loop_body hp st = inr (st', brk) -> lr st' = lr st) /\
  (IS_LR_DECAY hp = false ->
   forall (ph : phase) (st : state), reach hp ph st -> lr st = INIT_LR hp) /\
  (IS_LR_DECAY hp = true ->
   0 <= LR_DECAY hp ->
   0 <= INIT_LR hp ->
   (forall (ph : phase) (st : state),
      reach hp ph st -> 0 <= lr st <= INIT_LR hp) /\
   (forall st : state,
      reach hp Leaving st -> exists st1, lr_decay hp st = inr st1) /\
   (forall st st' : state,
      reach hp Leaving st ->
      end_episode hp st = inr st' ->
      lr st' = lr st / (1 + LR_DECAY hp * inject_Z (epoch_counter st)) /\
      lr st' <= lr st)).
Proof.
  split; [intros st st' brk H; apply (loop_body_keeps C hp _ _ _ H) |].
  split.
  - intros Hoff ph st R.
    induction R as [| st R IH _ | n st st' brk R IH Hb | st st' R IH He].
    + apply init_state_books.
    + destruct (begin_episode_keeps C hp st) as (-> & _). exact IH.
    + apply loop_body_keeps in Hb. destruct Hb as (-> & _). exact IH.
    + apply end_episode_detail in He. destruct He as (_ & E & _).
      rewrite (E Hoff). exact IH.
  - intros Hon Hd H0.
    assert (Hdiv : forall (ph : phase) (st : state),
              reach hp ph st ->
              1 <= 1 + LR_DECAY hp * inject_Z (epoch_counter st)).
    { intros ph st R. destruct (epoch_counter_nonneg ph st R) as [E _].
      assert (0 <= inject_Z (epoch_counter st))
        by (change 0 with (inject_Z 0); rewrite <- Zle_Qle; exact E).
      assert (0 <= LR_DECAY hp * inject_Z (epoch_counter st))
        by (apply Qmult_le_0_compat; assumption).
      lra. }
    assert (Hstep : forall (st st' : state),
              reach hp Leaving st -> 0 <= lr st ->
              end_episode hp st = inr st' ->
              lr st' = lr st / (1 + LR_DECAY hp * inject_Z (epoch_counter st))
              /\ 0 <= lr st' <= lr st).
    { intros st st' R Hl He. apply end_episode_detail in He.
      destruct He as (_ & _ & E & _). destruct (E Hon) as [_ ->].
      split; [reflexivity |]. pose proof (Hdiv _ _ R) as D.
      split.
      - apply Qle_shift_div_l; lra.
      - apply Qle_shift_div_r; [lra |]. nra. }
    assert (Hinv : forall (ph : phase) (st : state),
              reach hp ph st -> 0 <= lr st <= INIT_LR hp).
    { intros ph st R.
      induction R as [| st R IH _ | n st st' brk R IH Hb | st st' R IH He].
      - destruct init_state_books as (-> & _). lra.
      - destruct (begin_episode_keeps C hp st) as (-> & _). exact IH.
      - apply loop_body_keeps in Hb. destruct Hb as (-> & _). exact IH.
      - destruct (Hstep _ _ R (proj1 IH) He) as (_ & A). lra. }
    split; [exact Hinv |]. split.
    + intros st R. unfold lr_decay. rewrite Hon.
      rewrite py_div_ok; [simpl; eauto |].
      pose proof (Hdiv _ _ R). lra.
    + intros st st' R He.
      destruct (Hstep _ _ R (proj1 (Hinv _ _ R)) He) as (A & B).
      split; [exact A | lra].
Qed.

End EpisodeFacts.

Lemma div_step (e p : Z) :
  (1 <= p)%Z ->
  (e / p = (e - 1) / p + (if (e mod p =? 0)%Z then 1 else 0))%Z.
Proof.
  intros Hp.
  pose proof (Z.div_mod e p ltac:(lia)) as D.
  pose proof (Z.mod_pos_bound e p ltac:(lia)) as B.
  destruct (Z.eqb_spec (e mod p) 0) as [E | E].
  - assert (Q1 : ((e - 1) / p = e / p - 1)%Z).
    { symmetry. apply (Z.div_unique_pos (e - 1) p (e / p - 1) (p - 1)); lia. }
    lia.
  - assert (Q1 : ((e - 1) / p = e / p)%Z).
    { symmetry.
      apply (Z.div_unique_pos (e - 1) p (e / p) (e mod p - 1)); lia. }
    lia.
Qed.

Section RunBookFacts.

Variable C : collaborators.
Variable hp : hparams.

Local Abbreviation state := (train_state C).

Lemma episodes_done_enter (n : nat) (st : state) :
  episodes_done (enter_for n) st = (epoch_counter st - 1)%Z.
Proof. destruct n; reflexivity. Qed.

Lemma episodes_done_after (n : nat) (brk : bool) (st : state) :
  episodes_done (after_body n brk) st = (epoch_counter st - 1)%Z.
Proof. destruct brk; destruct n; reflexivity. Qed.

(** X10.  The accumulators follow the episodes: at every control point
    [accum['rew']] and [accum['steps']] hold one entry per completed
    episode, and, for PLOT_INTERVAL >= 1, [accum['eval_rew']] holds one
    entry per PLOT_INTERVAL completed episodes (rounded down); at the head
    of the [while] loop the last entry of [accum['steps']] is the current
    step count. *)
Theorem accumulators_track_episodes (ph : phase) (st : state) :
  reach hp ph st ->
  Z.of_nat (length (acc_rew (accum st))) = episodes_done ph st /\
  length (acc_steps (accum st)) = length (acc_rew (accum st)) /\
  ((1 <= PLOT_INTERVAL hp)%Z ->
   Z.of_nat (length (acc_eval_rew (accum st)))
   = (episodes_done ph st / PLOT_INTERVAL hp)%Z) /\
  (ph = Outside ->
   (1 <= epoch_counter st)%Z ->
   last (acc_steps (accum st)) 0%Z = step_counter st).
Proof.
  induction 1 as [| st R IH _ | n st st' brk R IH Hb | st st' R IH He].
  - destruct (init_state_books C hp) as (_ & -> & E). simpl. rewrite E.
    repeat split; try reflexivity. intros _ N. lia.
  - destruct (begin_episode_keeps C hp st) as (_ & -> & _).
    destruct (begin_episode_fields C hp st) as (_ & _ & E & _).
    rewrite episodes_done_enter, E. simpl in IH.
    destruct IH as (I1 & I2 & I3 & _).
    replace (epoch_counter st + 1 - 1)%Z with (epoch_counter st) by lia.
    repeat split; try assumption.
    intros N. destruct (Z.to_nat (N_STEPS hp)); discriminate.
  - pose proof (loop_body_keeps C hp _ _ _ Hb) as (_ & ->).
    apply loop_body_fields in Hb. destruct Hb as (_ & _ & _ & E & _).
    rewrite episodes_done_after, E. simpl in IH.
    destruct IH as (I1 & I2 & I3 & _).
    repeat split; try assumption.
    intros N. destruct brk; destruct n; discriminate.
  - pose proof (end_episode_fields C hp _ _ He)
      as (_ & _ & _ & F4 & _ & F6 & _).
    apply end_episode_detail in He.
    destruct He as (_ & _ & _ & A1 & A2 & A3 & _).
    simpl in IH |- *. destruct IH as (I1 & I2 & I3 & _).
    rewrite A1, A2, A3, F4, F6, !length_app. simpl.
    split; [lia |]. split; [lia |]. split.
    + intros HP. specialize (I3 HP).
      rewrite (div_step (epoch_counter st) _ HP).
      destruct (_ =? 0)%Z; lia.
    + intros _ _. apply last_last.
Qed.

Lemma count_resets_step (a : action) (log : list env_call) :
  count_resets (CallStep a :: log) = count_resets log.
Proof. reflexivity. Qed.

Lemma count_resets_reset (z : Z) (log : list env_call) :
  count_resets (CallReset z :: log) = S (count_resets log).
Proof. reflexivity. Qed.

(** X11.  The environment is reset once for every training episode and
    once for every evaluation, and by nothing else: at every control
    point the number of [reset] calls made so far is [epoch_counter] plus
    the number of entries of [accum['eval_rew']]. *)
Theorem resets_counted (ph : phase) (st : state) :
  reach hp ph st ->
  Z.of_nat (count_resets (env_calls st))
  = (epoch_counter st + Z.of_nat (length (acc_eval_rew (accum st))))%Z.
Proof.
  induction 1 as [| st R IH _ | n st st' brk R IH Hb | st st' R IH He].
  - destruct (init_state_books C hp) as (_ & -> & ->).
    destruct (init_state_fields C hp) as (_ & _ & _ & _ & -> & _).
    reflexivity.
  - destruct (begin_episode_keeps C hp st) as (_ & -> & _).
    destruct (begin_episode_fields C hp st)
      as (_ & _ & -> & _ & _ & _ & _ & _ & ->).
    rewrite count_resets_reset. lia.
  - pose proof (loop_body_keeps C hp _ _ _ Hb) as (_ & ->).
    apply loop_body_fields in Hb.
    destruct Hb as (_ & _ & _ & -> & _ & _ & _ & _ & (a & ->) & _).
    rewrite count_resets_step. exact IH.
  - pose proof (end_episode_fields C hp _ _ He)
      as (_ & _ & _ & _ & _ & -> & _).
    apply end_episode_detail in He.
    destruct He as (_ & _ & _ & _ & _ & -> & ->). lia.
Qed.

(** X12.  With prioritized mode off the loop never assigns
    [exp_replay.beta]: at every control point of the run it has the value
    it had on entry to the loop. *)
Theorem beta_constant_without_per (ph : phase) (st : state) :
  PER hp = false ->
  reach hp ph st ->
  beta st = beta (init_state C hp).
Proof.
  intros Hoff.
  induction 1 as [| st R IH _ | n st st' brk R IH Hb | st st' R IH He].
  - reflexivity.
  - destruct (begin_episode_fields C hp st)
      as (_ & _ & _ & _ & _ & _ & _ & -> & _). exact IH.
  - apply loop_body_fields in Hb.
    destruct Hb as (_ & _ & _ & _ & _ & _ & _ & Hbeta & _).
    unfold beta_anneal in Hbeta. rewrite Hoff in Hbeta.
    inversion Hbeta as [E]. congruence.
  - apply end_episode_fields in He.
    destruct He as (_ & _ & _ & _ & _ & _ & _ & -> & _). exact IH.
Qed.

End RunBookFacts.

(** ** How long episodes are, and how many there are *)

Section LengthFacts.

Variable C : collaborators.
Variable hp : hparams.

Local Abbreviation state := (train_state C).

Lemma interact_result (st : state) :
  exists a, snd (interact st) = snd (env_step C (env st) a).
Proof.
  unfold interact.
  destruct (sample_discrete_action C _ _ _ _ _) as [a g].
  exists a. destruct (env_step C (env st) a) as [e1 r]. reflexivity.
Qed.

Lemma loop_body_break (st st' : state) (brk : bool) :
  loop_body hp st = inr (st', brk) ->
  exists a, brk = done (snd (env_step C (env st) a)).
Proof.
  intros H. apply loop_body_fields in H.
  destruct H as (_ & _ & _ & _ & _ & _ & _ & _ & _ & ->).
  destruct (interact_result st) as (a & ->). eauto.
Qed.

Lemma for_steps_never_done (n : nat) :
  (forall e a, done (snd (env_step C e a)) = false) ->
  forall st st' : state,
    for_steps hp n st = inr st' ->
    step_counter st' = (step_counter st + Z.of_nat n)%Z.
Proof.
  intros Hn. induction n as [| n IH]; simpl for_steps; intros st st' H.
  - inversion H. subst. simpl. lia.
  - apply bind_inr in H. destruct H as ([st1 brk] & Hb & H).
    destruct (loop_body_break _ _ _ Hb) as (a & E). rewrite Hn in E.
    subst brk. apply loop_body_fields in Hb. destruct Hb as (_ & S1 & _).
    apply IH in H. lia.
Qed.

Lemma for_steps_always_done (n : nat) :
  (forall e a, done (snd (env_step C e a)) = true) ->
  forall st st' : state,
    for_steps hp (S n) st = inr st' ->
    step_counter st' = (step_counter st + 1)%Z.
Proof.
  intros Hd st st' H. simpl for_steps in H.
  apply bind_inr in H. destruct H as ([st1 brk] & Hb & H).
  destruct (loop_body_break _ _ _ Hb) as (a & E). rewrite Hd in E.
  subst brk. apply loop_body_fields in Hb. destruct Hb as (_ & S1 & _).
  inversion H. subst. exact S1.
Qed.

(** X13.  An episode that completes makes exactly N_STEPS environment
    steps (none for N_STEPS <= 0) when the environment never reports
    [done], and exactly one step, for N_STEPS >= 1, when the environment
    reports [done] at every step. *)
Theorem episode_length (st st' : state) :
  episode hp st = inr st' ->
  ((forall e a, done (snd (env_step C e a)) = false) ->
   step_counter st' = (step_counter st + Z.max 0 (N_STEPS hp))%Z) /\
  ((forall e a, done (snd (env_step C e a)) = true) ->
   (1 <= N_STEPS hp)%Z ->
   step_counter st' = (step_counter st + 1)%Z).
Proof.
  intros H. unfold episode in H.
  apply bind_inr in H. destruct H as (st1 & Hf & He).
  apply end_episode_fields in He. destruct He as (_ & _ & _ & -> & _).
  destruct (begin_episode_fields C hp st) as (E0 & _).
  split.
  - intros Hn. apply (for_steps_never_done _ Hn) in Hf. lia.
  - intros Hd HN.
    destruct (Z.to_nat (N_STEPS hp)) as [| k] eqn:EN; [lia |].
    apply (for_steps_always_done _ Hd) in Hf. lia.
Qed.

Lemma episode_invariant (ph : phase) (st : state) :
  (1 <= N_STEPS hp)%Z ->
  reach hp ph st ->
  (epoch_counter st <= Z.max 0 (TOTAL_TIMESTEPS hp))%Z /\
  (ph = Outside \/ ph = Leaving ->
   (epoch_counter st <= step_counter st <= epoch_counter st * N_STEPS hp)%Z) /\
  (forall k, ph = Inside k ->
   (epoch_counter st - 1 <= step_counter st)%Z /\
   (step_counter st + Z.of_nat k <= epoch_counter st * N_STEPS hp)%Z).
Proof.
  intros HN.
  induction 1 as [| st R IH Hlt | n st st' brk R IH Hb | st st' R IH He].
  - destruct (init_state_books C hp) as (_ & _ & E).
    destruct (init_state_fields C hp) as (E0 & _). rewrite E, E0.
    split; [lia |]. split; [intros _; lia | intros k N; discriminate].
  - destruct (begin_episode_fields C hp st) as (E0 & _ & E & _).
    rewrite E0, E. destruct IH as (I1 & I2 & _).
    specialize (I2 (or_introl eq_refl)).
    destruct (Z.to_nat (N_STEPS hp)) as [| k] eqn:EN; [lia |]. simpl.
    split; [lia |]. split; [intros [N | N]; discriminate |].
    intros k' N. inversion N. subst k'. nia.
  - apply loop_body_fields in Hb. destruct Hb as (_ & E0 & _ & E & _).
    rewrite E0, E. destruct IH as (I1 & _ & I3).
    destruct (I3 (S n) eq_refl) as [J1 J2].
    split; [exact I1 |].
    destruct brk; [| destruct n]; simpl.
    + split; [intros _; lia | intros k N; discriminate].
    + split; [intros _; lia | intros k N; discriminate].
    + split; [intros [N | N]; discriminate |].
      intros k N. inversion N. subst k. lia.
  - apply end_episode_fields in He.
    destruct He as (_ & _ & _ & E0 & _ & E & _).
    rewrite E0, E. destruct IH as (I1 & I2 & _).
    specialize (I2 (or_intror eq_refl)).
    split; [exact I1 |]. split; [intros _; exact I2 |].
    intros k N. discriminate.
Qed.

(** X14.  With N_STEPS >= 1: at the head of the [while] loop the episode
    count is at most the step count, the step count is at most N_STEPS
    times the episode count, and no more than TOTAL_TIMESTEPS episodes are
    ever started; so a run that returns has made at least
    TOTAL_TIMESTEPS / N_STEPS and at most max(0, TOTAL_TIMESTEPS)
    episodes. *)
Theorem episodes_within_budget :
  (1 <= N_STEPS hp)%Z ->
  (forall st : state,
     reach hp Outside st ->
     (0 <= epoch_counter st <= step_counter st)%Z /\
     (step_counter st <= epoch_counter st * N_STEPS hp)%Z /\
     (epoch_counter st <= Z.max 0 (TOTAL_TIMESTEPS hp))%Z) /\
  (forall (fuel : nat) (st : state),
     main C hp fuel = Some (inr st) ->
     (TOTAL_TIMESTEPS hp <= epoch_counter st * N_STEPS hp)%Z /\
     (epoch_counter st <= Z.max 0 (TOTAL_TIMESTEPS hp))%Z).
Proof.
  intros HN.
  assert (A : forall st : state,
     reach hp Outside st ->
     (0 <= epoch_counter st <= step_counter st)%Z /\
     (step_counter st <= epoch_counter st * N_STEPS hp)%Z /\
     (epoch_counter st <= Z.max 0 (TOTAL_TIMESTEPS hp))%Z).
  { intros st R. destruct (episode_invariant _ _ HN R) as (I1 & I2 & _).
    specialize (I2 (or_introl eq_refl)).
    destruct (epoch_counter_nonneg C hp _ _ R) as [E _]. lia. }
  split; [exact A |].
  intros fuel st H.
  destruct (main_loop_reach C hp fuel (init_state C hp) st reach_init H)
    as [R HT].
  destruct (A st R) as (_ & A2 & A3). lia.
Qed.

End LengthFacts.

(** X15.  With a budget that is not positive the loop is not entered:
    [main] returns the state it set up, for any fuel, without a single
    [reset] or [step] of the environment. *)
Theorem no_budget_no_run (C : collaborators) (hp : hparams) (fuel : nat) :
  (TOTAL_TIMESTEPS hp <= 0)%Z ->
  main C hp fuel = Some (inr (init_state C hp)) /\
  env_calls (init_state C hp) = [] /\
  epoch_counter (init_state C hp) = 0%Z.
Proof.
  intros HT. destruct (init_state_fields C hp) as (E0 & _ & _ & _ & EL & _).
  destruct (init_state_books C hp) as (_ & _ & EE).
  split; [| split; assumption].
  unfold main. destruct fuel; simpl; rewrite E0;
    destruct (Z.ltb_spec 0 (TOTAL_TIMESTEPS hp)); try lia; reflexivity.
Qed.

(** ** These properties at work on the small runs *)

Lemma plain_final_reach : reach Edge.plain Outside Edge.plain_final.
Proof.
  apply (main_loop_reach quiet Edge.plain 3 (init_state quiet Edge.plain)).
  - apply reach_init.
  - vm_compute. reflexivity.
Qed.

Lemma updates_bounded_by_steps_witness :
  (1 <= UPDATE_STEPS toy_hp)%Z /\
  reach toy_hp Outside final_state /\
  (0 <= lstep_counter final_state)%Z /\
  (lstep_counter final_state * UPDATE_STEPS toy_hp
   <= step_counter final_state)%Z.
Proof.
  assert (H1 : (1 <= UPDATE_STEPS toy_hp)%Z) by (vm_compute; discriminate).
  pose proof final_state_reach as R.
  split; [exact H1 |]. split; [exact R |].
  exact (updates_bounded_by_steps quiet toy_hp Outside final_state H1 R).
Defined.

Lemma initial_parameters_kept_witness :
  (1 <= UPDATE_TARGET toy_hp)%Z /\
  reach toy_hp Outside after_first_episode /\
  (lstep_counter after_first_episode < UPDATE_TARGET toy_hp)%Z /\
  state_dict (target_qnet after_first_episode)
  = state_dict (online_qnet (init_state quiet toy_hp)).
Proof.
  assert (H1 : (1 <= UPDATE_TARGET toy_hp)%Z) by (vm_compute; discriminate).
  assert (H2 : (lstep_counter after_first_episode < UPDATE_TARGET toy_hp)%Z)
    by (vm_compute; reflexivity).
  pose proof after_first_episode_reach as R.
  split; [exact H1 |]. split; [exact R |]. split; [exact H2 |].
  exact (proj2 (proj1 (initial_parameters_kept quiet toy_hp Outside
                         after_first_episode H1 R) H2)).
Defined.

Lemma zero_explore_raises_witness :
  EXPLORE Edge.no_explore = 0%Z /\
  (1 <= TOTAL_TIMESTEPS Edge.no_explore)%Z /\
  (1 <= N_STEPS Edge.no_explore)%Z /\
  exists e, main quiet Edge.no_explore 1 = Some (inl e).
Proof.
  assert (H1 : EXPLORE Edge.no_explore = 0%Z) by reflexivity.
  assert (H2 : (1 <= TOTAL_TIMESTEPS Edge.no_explore)%Z)
    by (vm_compute; discriminate).
  assert (H3 : (1 <= N_STEPS Edge.no_explore)%Z)
    by (vm_compute; discriminate).
  split; [exact H1 |]. split; [exact H2 |]. split; [exact H3 |].
  exact (proj2 (proj2 (zero_explore_raises quiet Edge.no_explore H1))
           H2 H3 O).
Defined.

Lemma zero_plot_interval_raises_witness :
  PLOT_INTERVAL Edge.no_plot = 0%Z /\
  (1 <= TOTAL_TIMESTEPS Edge.no_plot)%Z /\
  exists e, main quiet Edge.no_plot 1 = Some (inl e).
Proof.
  assert (H1 : PLOT_INTERVAL Edge.no_plot = 0%Z) by reflexivity.
  assert (H2 : (1 <= TOTAL_TIMESTEPS Edge.no_plot)%Z)
    by (vm_compute; discriminate).
  split; [exact H1 |]. split; [exact H2 |].
  exact (proj2 (zero_plot_interval_raises quiet Edge.no_plot H1) H2 O).
Defined.

Lemma zero_cadence_raises_witness :
  UPDATE_STEPS Edge.no_update_steps = 0%Z /\
  (BATCH_SIZE Edge.no_update_steps
   < counter quiet (exp_replay (stored Edge.first_stored)))%Z /\
  loop_body Edge.no_update_steps Edge.first_stored = inl ZeroDivisionError.
Proof.
  assert (H1 : UPDATE_STEPS Edge.no_update_steps = 0%Z) by reflexivity.
  assert (H2 : (BATCH_SIZE Edge.no_update_steps
                < counter quiet (exp_replay (stored Edge.first_stored)))%Z)
    by (vm_compute; reflexivity).
  split; [exact H1 |]. split; [exact H2 |].
  exact (proj1 (zero_cadence_raises quiet Edge.no_update_steps
                  Edge.first_stored) H1 H2).
Defined.

Lemma eval_model_calls_witness :
  eval_model (online_qnet final_state) (env final_state) (rng final_state)
    [] 2 5
  = (2, (5%Z, 2%Z), 22%Z, [CallStep 0%Z; CallStep 0%Z; CallReset 5]) /\
  exists steps,
    [CallStep 0%Z; CallStep 0%Z; CallReset 5] = steps ++ CallReset 5 :: [] /\
    count_resets steps = O /\
    (Z.of_nat (length steps) <= Z.max 0 2)%Z /\
    ((1 <= 2)%Z -> (1 <= length steps)%nat) /\
    ((forall e1 a, done (snd (env_step quiet e1 a)) = false) ->
     Z.of_nat (length steps) = Z.max 0 2).
Proof.
  assert (H : eval_model (online_qnet final_state) (env final_state)
                (rng final_state) [] 2 5
              = (2, (5%Z, 2%Z), 22%Z,
                 [CallStep 0%Z; CallStep 0%Z; CallReset 5]))
    by (vm_compute; reflexivity).
  split; [exact H |].
  exact (eval_model_calls quiet (online_qnet final_state) (env final_state)
           (rng final_state) [] 2 5 _ _ _ _ H).
Defined.

Lemma learning_rate_schedule_witness :
  IS_LR_DECAY toy_hp = true /\
  0 <= LR_DECAY toy_hp /\
  0 <= INIT_LR toy_hp /\
  reach toy_hp Outside final_state /\
  0 <= lr final_state <= INIT_LR toy_hp.
Proof.
  assert (H1 : IS_LR_DECAY toy_hp = true) by reflexivity.
  assert (H2 : 0 <= LR_DECAY toy_hp) by (vm_compute; discriminate).
  assert (H3 : 0 <= INIT_LR toy_hp) by (vm_compute; discriminate).
  pose proof final_state_reach as R.
  split; [exact H1 |]. split; [exact H2 |]. split; [exact H3 |].
  split; [exact R |].
  exact (proj1 (proj2 (proj2 (learning_rate_schedule quiet toy_hp))
                  H1 H2 H3) Outside final_state R).
Defined.

Lemma accumulators_track_episodes_witness :
  reach Edge.plain Outside Edge.plain_final /\
  (1 <= PLOT_INTERVAL Edge.plain)%Z /\
  Z.of_nat (length (acc_rew (accum Edge.plain_final)))
  = epoch_counter Edge.plain_final /\
  Z.of_nat (length (acc_eval_rew (accum Edge.plain_final)))
  = (epoch_counter Edge.plain_final / PLOT_INTERVAL Edge.plain)%Z.
Proof.
  pose proof plain_final_reach as R.
  assert (H1 : (1 <= PLOT_INTERVAL Edge.plain)%Z)
    by (vm_compute; discriminate).
  destruct (accumulators_track_episodes quiet Edge.plain Outside
              Edge.plain_final R) as (A1 & _ & A3 & _).
  split; [exact R |]. split; [exact H1 |].
  split; [exact A1 | exact (A3 H1)].
Defined.

Lemma resets_counted_witness :
  reach Edge.plain Outside Edge.plain_final /\
  Z.of_nat (count_resets (env_calls Edge.plain_final))
  = (epoch_counter Edge.plain_final
     + Z.of_nat (length (acc_eval_rew (accum Edge.plain_final))))%Z.
Proof.
  pose proof plain_final_reach as R.
  split; [exact R |].
  exact (resets_counted quiet Edge.plain Outside Edge.plain_final R).
Defined.

Lemma beta_constant_without_per_witness :
  PER Edge.plain = false /\
  reach Edge.plain Outside Edge.plain_final /\
  beta Edge.plain_final = beta (init_state quiet Edge.plain).
Proof.
  assert (H1 : PER Edge.plain = false) by reflexivity.
  pose proof plain_final_reach as R.
  split; [exact H1 |]. split; [exact R |].
  exact (beta_constant_without_per quiet Edge.plain Outside
           Edge.plain_final H1 R).
Defined.

Lemma ending_first_runs :
  episode toy_hp (init_state Edge.ending toy_hp) = inr Edge.ending_first.
Proof. vm_compute. reflexivity. Qed.

Lemma episode_length_witness :
  episode toy_hp (init_state Edge.ending toy_hp) = inr Edge.ending_first /\
  (forall e a, done (snd (env_step Edge.ending e a)) = true) /\
  (1 <= N_STEPS toy_hp)%Z /\
  step_counter Edge.ending_first
  = (step_counter (init_state Edge.ending toy_hp) + 1)%Z.
Proof.
  pose proof ending_first_runs as H.
  assert (H1 : forall e a, done (snd (env_step Edge.ending e a)) = true)
    by (intros; reflexivity).
  assert (H2 : (1 <= N_STEPS toy_hp)%Z) by (vm_compute; discriminate).
  split; [exact H |]. split; [exact H1 |]. split; [exact H2 |].
  exact (proj2 (episode_length Edge.ending toy_hp _ _ H) H1 H2).
Defined.

Lemma final_state_returned :
  main quiet toy_hp 3 = Some (inr final_state).
Proof. vm_compute. reflexivity. Qed.

Lemma episodes_within_budget_witness :
  (1 <= N_STEPS toy_hp)%Z /\
  main quiet toy_hp 3 = Some (inr final_state) /\
  (TOTAL_TIMESTEPS toy_hp <= epoch_counter final_state * N_STEPS toy_hp)%Z /\
  (epoch_counter final_state <= Z.max 0 (TOTAL_TIMESTEPS toy_hp))%Z.
Proof.
  assert (H1 : (1 <= N_STEPS toy_hp)%Z) by (vm_compute; discriminate).
  pose proof final_state_returned as H.
  split; [exact H1 |]. split; [exact H |].
  exact (proj2 (episodes_within_budget quiet toy_hp H1) 3%nat final_state H).
Defined.

Lemma no_budget_no_run_witness :
  (TOTAL_TIMESTEPS Edge.no_budget <= 0)%Z /\
  main quiet Edge.no_budget 0
  = Some (inr (init_state quiet Edge.no_budget)) /\
  env_calls (init_state quiet Edge.no_budget) = [] /\
  epoch_counter (init_state quiet Edge.no_budget) = 0%Z.
Proof.
  assert (H1 : (TOTAL_TIMESTEPS Edge.no_budget <= 0)%Z)
    by (vm_compute; discriminate).
  split; [exact H1 |].
  exact (no_budget_no_run quiet Edge.no_budget 0 H1).
Defined.

(** * The TD target on binary32 values *)

Ltac cmp_cases :=
  repeat match goal with
  | |- context [Pos.compare_cont Eq ?a ?b] =>
      change (Pos.compare_cont Eq a b) with (Pos.compare a b)
  | H : context [Pos.compare_cont Eq ?a ?b] |- _ =>
      change (Pos.compare_cont Eq a b) with (Pos.compare a b) in H
  end;
  repeat match goal with
  | H : context [Z.compare ?a ?b] |- _ =>
      destruct (Z.compare_spec a b); simpl in H; try discriminate
  | H : context [Pos.compare ?a ?b] |- _ =>
      destruct (Pos.compare_spec a b); simpl in H; try discriminate
  end;
  repeat match goal with
  | |- context [Z.compare ?a ?b] =>
      destruct (Z.compare_spec a b); simpl; try reflexivity; try lia
  | |- context [Pos.compare ?a ?b] =>
      destruct (Pos.compare_spec a b); simpl; try reflexivity; try lia
  end.

Lemma f32_leb_trans (x y z : spec_float) :
  Float32.leb x y = true -> Float32.leb y z = true -> Float32.leb x z = true.
Proof.
  unfold Float32.leb, SFleb, SFcompare.
  destruct x as [sx | sx | | sx mx ex]; destruct y as [sy | sy | | sy my ey];
    destruct z as [sz | sz | | sz mz ez];
    try destruct sx; try destruct sy; try destruct sz; simpl;
    try discriminate; try reflexivity; intros H1 H2; cmp_cases; subst;
    try lia.
Qed.

Lemma f32_leb_refl (x : spec_float) :
  Float32.is_nan x = false -> Float32.leb x x = true.
Proof.
  unfold Float32.leb, SFleb, SFcompare.
  destruct x as [s | s | | s m e]; try destruct s; simpl;
    try reflexivity; try discriminate; intros _; rewrite Z.compare_refl;
    change (Pos.compare_cont Eq m m) with (Pos.compare m m);
    rewrite Pos.compare_refl; reflexivity.
Qed.

Lemma f32_leb_total (x y : spec_float) :
  Float32.is_nan x = false -> Float32.is_nan y = false ->
  Float32.leb x y = false -> Float32.leb y x = true.
Proof.
  unfold Float32.leb, SFleb, SFcompare.
  destruct x as [sx | sx | | sx mx ex]; destruct y as [sy | sy | | sy my ey];
    try destruct sx; try destruct sy; simpl;
    try discriminate; try reflexivity; intros _ _ H1; cmp_cases; subst;
    try lia.
Qed.

Lemma f32_eqb_refl (x : spec_float) :
  Float32.is_nan x = false -> Float32.eqb x x = true.
Proof.
  unfold Float32.eqb, SFeqb, SFcompare.
  destruct x as [s | s | | s m e]; try destruct s; simpl;
    try reflexivity; try discriminate; intros _; rewrite Z.compare_refl;
    change (Pos.compare_cont Eq m m) with (Pos.compare m m);
    rewrite Pos.compare_refl; reflexivity.
Qed.

Section Float32Facts.

Import Float32.

Lemma max_from_index (l pre : list f32) (best : f32) (besti : nat) :
  nth_error (pre ++ l) besti = Some best ->
  nth_error (pre ++ l) (snd (max_from best besti (length pre) l))
  = Some (fst (max_from best besti (length pre) l)).
Proof.
  revert pre best besti.
  induction l as [| y t IH]; intros pre best besti Hn; simpl.
  - exact Hn.
  - assert (E : pre ++ y :: t = (pre ++ [y]) ++ t)
      by (rewrite <- app_assoc; reflexivity).
    assert (L : S (length pre) = length (pre ++ [y]))
      by (rewrite length_app; simpl; lia).
    assert (Hy : nth_error (pre ++ y :: t) (length pre) = Some y).
    { rewrite nth_error_app2 by lia. rewrite Nat.sub_diag. reflexivity. }
    destruct (leb y best).
    + rewrite E, L. apply IH. rewrite <- E. exact Hn.
    + destruct (is_nan y).
      * simpl. exact Hy.
      * rewrite E, L. apply IH. rewrite <- E. exact Hy.
Qed.

Lemma max_from_max (l pre : list f32) (best : f32) (besti : nat) :
  (forall x, In x (pre ++ l) -> is_nan x = false) ->
  is_nan best = false ->
  (forall x, In x pre -> leb x best = true) ->
  forall x, In x (pre ++ l) ->
    leb x (fst (max_from best besti (length pre) l)) = true.
Proof.
  revert pre best besti.
  induction l as [| y t IH]; intros pre best besti Hnan Hb Hle; simpl.
  - rewrite app_nil_r. exact Hle.
  - assert (E : pre ++ y :: t = (pre ++ [y]) ++ t)
      by (rewrite <- app_assoc; reflexivity).
    assert (L : S (length pre) = length (pre ++ [y]))
      by (rewrite length_app; simpl; lia).
    assert (Hy : is_nan y = false)
      by (apply Hnan; apply in_or_app; right; left; reflexivity).
    rewrite Hy. destruct (leb y best) eqn:C; rewrite E, L.
    + apply IH; [rewrite <- E; exact Hnan | exact Hb |].
      intros x Hx. apply in_app_or in Hx. destruct Hx as [Hx | [Hx | []]].
      * apply Hle. exact Hx.
      * subst x. exact C.
    + apply IH; [rewrite <- E; exact Hnan | exact Hy |].
      intros x Hx. apply in_app_or in Hx. destruct Hx as [Hx | [Hx | []]].
      * apply (f32_leb_trans x best y); [apply Hle; exact Hx |].
        apply f32_leb_total; assumption.
      * subst x. apply f32_leb_refl. exact Hy.
Qed.

Lemma torch_max_index (grad : bool) (row : tensor (list f32))
  (tv : tensor f32) (i : nat) :
  torch_max grad row = inr (tv, i) ->
  nth_error (data row) i = Some (data tv) /\
  requires_grad tv = grad && requires_grad row.
Proof.
  unfold torch_max. destruct (data row) as [| x t]; [discriminate |].
  destruct (is_nan x).
  - intros H. inversion H. subst. simpl. split; reflexivity.
  - pose proof (max_from_index t [x] x 0 eq_refl) as Hi. simpl in Hi.
    destruct (max_from x 0 1 t) as [v k]. intros H. inversion H. subst.
    simpl in *. split; [exact Hi | reflexivity].
Qed.

Lemma torch_max_greatest (grad : bool) (row : tensor (list f32))
  (tv : tensor f32) (i : nat) :
  (forall x, In x (data row) -> is_nan x = false) ->
  torch_max grad row = inr (tv, i) ->
  forall x, In x (data row) -> leb x (data tv) = true.
Proof.
  unfold torch_max. destruct (data row) as [| y t]; [discriminate |].
  intros Hnan. assert (Hy : is_nan y = false) by (apply Hnan; left; reflexivity).
  rewrite Hy.
  pose proof (max_from_max t [y] y 0 Hnan Hy) as Hm. simpl in Hm.
  destruct (max_from y 0 1 t) as [v k]. intros H. inversion H. subst. simpl.
  apply Hm. intros x [<- | []]. apply f32_leb_refl. exact Hy.
Qed.

Lemma torch_max_runs (grad : bool) (row : tensor (list f32)) :
  data row <> [] -> exists tv i, torch_max grad row = inr (tv, i).
Proof.
  unfold torch_max. destruct (data row) as [| y t]; [contradiction |].
  intros _. destruct (if is_nan y then (y, 0%nat) else max_from y 0 1 t).
  eauto.
Qed.

(** The selected next-state value: where it stands, what it is at least,
    and that it carries no gradient under [no_grad]. *)
Lemma q_ns_of_runs (ddqn : bool) (online target : list f32 -> list f32)
  (ns : list f32) :
  target ns <> [] ->
  (ddqn = true -> length (online ns) = length (target ns)) ->
  exists q,
    q_ns_of ddqn online target false ns = inr q /\
    requires_grad q = false /\
    In (data q) (target ns) /\
    ((forall v, In v ((if ddqn then online else target) ns) ->
        is_nan v = false) ->
     if ddqn then
       exists a, is_argmax (online ns) a /\
                 nth_error (target ns) a = Some (data q)
     else is_max (target ns) (data q)).
Proof.
  intros Hne Hlen. unfold q_ns_of. destruct ddqn.
  - specialize (Hlen eq_refl).
    assert (Hon : data (forward false online ns) <> []).
    { simpl. intros E. apply Hne. apply length_zero_iff_nil.
      rewrite <- Hlen, E. reflexivity. }
    destruct (torch_max_runs false _ Hon) as (tv & i & E).
    rewrite E. simpl.
    pose proof (torch_max_index _ _ _ _ E) as [Hi _]. simpl in Hi.
    assert (Hlt : (i < length (target ns))%nat).
    { rewrite <- Hlen. apply nth_error_Some. congruence. }
    unfold torch_gather. simpl.
    destruct (nth_error (target ns) i) as [q |] eqn:G.
    + eexists. split; [reflexivity |]. simpl.
      split; [reflexivity |]. split; [eapply nth_error_In; exact G |].
      intros Hnan. exists i. split; [| exact G].
      exists (data tv). split; [exact Hi |].
      apply (torch_max_greatest false (forward false online ns) tv i);
        assumption.
    + apply nth_error_None in G. lia.
  - assert (Hon : data (forward false target ns) <> []) by exact Hne.
    destruct (torch_max_runs false _ Hon) as (tv & i & E).
    rewrite E. simpl.
    pose proof (torch_max_index _ _ _ _ E) as [Hi Hg]. simpl in Hi, Hg.
    exists tv. split; [reflexivity |]. split; [exact Hg |].
    split; [eapply nth_error_In; exact Hi |].
    intros Hnan. split; [eapply nth_error_In; exact Hi |].
    apply (torch_max_greatest false (forward false target ns) tv i);
      assumption.
Qed.

(** With [done = 1] the bootstrap term is a zero and leaves the reward. *)
Lemma terminal_bootstrap (gamma q r : f32) :
  is_finite gamma = true ->
  is_finite q = true ->
  is_nan r = false ->
  exists sg,
    mul (mul gamma (sub one one)) q = S754_zero sg /\
    eqb (add r (S754_zero sg)) r = true.
Proof.
  assert (E : sub one one = S754_zero false) by (vm_compute; reflexivity).
  rewrite E. intros Hg Hq Hr.
  assert (Z1 : exists s1, mul gamma (S754_zero false) = S754_zero s1).
  { destruct gamma; try discriminate; simpl; eauto. }
  destruct Z1 as (s1 & ->).
  assert (Z2 : exists s2, mul (S754_zero s1) q = S754_zero s2).
  { destruct q; try discriminate; simpl; eauto. }
  destruct Z2 as (s2 & ->). exists s2. split; [reflexivity |].
  destruct r as [s | s | | s m e]; try discriminate.
  - destruct s; destruct s2; reflexivity.
  - destruct s; reflexivity.
  - change (add (S754_finite s m e) (S754_zero s2)) with (S754_finite s m e).
    apply f32_eqb_refl. reflexivity.
Qed.

End Float32Facts.

(** C1 (amended).  On binary32 tensors, when the target network returns at
    least one action value for the next state of every sample (and, in
    double mode, the online network returns as many), the TD target of a
    batch is computed, and for every sample: it requires no gradient, in
    both modes, since it is computed under [no_grad]; when the row whose
    maximum is taken holds no NaN, it is
    [reward + GAMMA * (1 - done) * max_a target(next_state)[a]] in vanilla
    mode and [reward + GAMMA * (1 - done) * target(next_state)[a*]] with
    [a*] an arg-max of the online values in double mode; and when
    [done = 1], GAMMA and the target network's next-state values are
    finite and the reward is not NaN, the bootstrap term is a zero and the
    target equals the reward, in both modes. *)
Theorem td_target_float
  (ddqn : bool) (gamma : Float32.f32)
  (online target : list Float32.f32 -> list Float32.f32)
  (b : list Float32.sample32) :
  (forall x, In x b ->
     target (Float32.b32_ns x) <> [] /\
     (ddqn = true ->
      length (online (Float32.b32_ns x))
      = length (target (Float32.b32_ns x)))) ->
  exists targ,
    Float32.q_targ ddqn gamma online target b = inr targ /\
    Forall2
      (fun x y =>
         Float32.requires_grad y = false /\
         ((forall v,
             In v ((if ddqn then online else target) (Float32.b32_ns x)) ->
             Float32.is_nan v = false) ->
          Float32.td_target_spec ddqn gamma online target x
            (Float32.data y)) /\
         (Float32.b32_d x = Float32.one ->
          Float32.is_finite gamma = true ->
          (forall v, In v (target (Float32.b32_ns x)) ->
             Float32.is_finite v = true) ->
          Float32.is_nan (Float32.b32_r x) = false ->
          exists sg,
            Float32.data y
            = Float32.add (Float32.b32_r x) (S754_zero sg) /\
            Float32.eqb (Float32.data y) (Float32.b32_r x) = true))
      b targ.
Proof.
  intros H. unfold Float32.q_targ. apply mapM_Forall2.
  intros x Hx. destruct (H x Hx) as [Hne Hlen].
  destruct (q_ns_of_runs ddqn online target (Float32.b32_ns x) Hne Hlen)
    as (q & E & Hg & Hin & Hspec).
  unfold Float32.q_targ_of. rewrite E.
  unfold bind, ret, Float32.pointwise, Float32.lift.
  cbn [Float32.data Float32.requires_grad andb orb].
  eexists. split; [reflexivity |].
  cbn [Float32.data Float32.requires_grad].
  split; [reflexivity |]. split.
  - intros Hnan. specialize (Hspec Hnan).
    unfold Float32.td_target_spec. destruct ddqn.
    + destruct Hspec as (a & A1 & A2). exists a, (Float32.data q).
      repeat split; assumption.
    + exists (Float32.data q). split; [exact Hspec | reflexivity].
  - intros Hd Hgam Hfin Hr. rewrite Hd.
    destruct (terminal_bootstrap gamma (Float32.data q) (Float32.b32_r x)
                Hgam (Hfin _ Hin) Hr) as (sg & Z & Q1).
    exists sg. rewrite Z. split; [reflexivity | exact Q1].
Qed.

Lemma td_target_float_witness :
  (forall x, In x [Float32.terminal32] ->
     Float32.steady_net (Float32.b32_ns x) <> [] /\
     (true = true ->
      length (Float32.steady_net (Float32.b32_ns x))
      = length (Float32.steady_net (Float32.b32_ns x)))) /\
  exists y,
    Float32.q_targ true Float32.gamma99 Float32.steady_net
      Float32.steady_net [Float32.terminal32] = inr [y] /\
    Float32.requires_grad y = false /\
    Float32.td_target_spec true Float32.gamma99 Float32.steady_net
      Float32.steady_net Float32.terminal32 (Float32.data y) /\
    Float32.eqb (Float32.data y) Float32.two_and_half = true.
Proof.
  assert (H : forall x, In x [Float32.terminal32] ->
     Float32.steady_net (Float32.b32_ns x) <> [] /\
     (true = true ->
      length (Float32.steady_net (Float32.b32_ns x))
      = length (Float32.steady_net (Float32.b32_ns x)))).
  { intros x _. split; [discriminate | intros _; reflexivity]. }
  split; [exact H |].
  destruct (td_target_float true Float32.gamma99 Float32.steady_net
              Float32.steady_net [Float32.terminal32] H) as (targ & E & F).
  inversion F as [| x y l l' (G & S1 & S2) F' E1 E2]. subst.
  inversion F'. subst.
  exists y. split; [exact E |]. split; [exact G |]. split.
  - apply S1. intros v Hv.
    destruct Hv as [<- | [<- | []]]; reflexivity.
  - destruct S2 as (sg & _ & Q1).
    + reflexivity.
    + reflexivity.
    + intros v Hv. destruct Hv as [<- | [<- | []]]; reflexivity.
    + reflexivity.
    + exact Q1.
Defined.

(** C1, as stated, fails: with [done = 1], reward 2.5, GAMMA 0.99 and an
    infinite next-state value the bootstrap term is [0 * inf], and the TD
    target is NaN, not the reward. *)
Lemma td_target_nan :
  Float32.b32_d Float32.terminal32 = Float32.one /\
  Float32.b32_r Float32.terminal32 = Float32.two_and_half /\
  Float32.q_targ false Float32.gamma99 Float32.steady_net
    Float32.diverged_net [Float32.terminal32]
  = inr [Float32.mkTensor S754_nan false] /\
  Float32.eqb S754_nan Float32.two_and_half = false.
Proof.
  split; [reflexivity |]. split; [reflexivity |].
  split; vm_compute; reflexivity.
Qed.

(** * Every episode starts from one seeded reset *)

Section SeedFacts.

Variable C : collaborators.
Variable hp : hparams.

Local Abbreviation state := (train_state C).

Lemma evaluate_log (st : state) :
  exists steps,
    env_calls (evaluate hp st)
    = steps ++ CallReset (env_seed C hp) :: env_calls st /\
    count_resets steps = O.
Proof.
  unfold evaluate, eval_model.
  destruct (env_reset C (env st) (env_seed C hp)) as [e0 s0].
  destruct (eval_loop _ _ _ _ _ _ _) as [[[r e] g] log] eqn:E. simpl.
  apply eval_loop_resets in E. destruct E as (steps & -> & Hc & _).
  exists steps. split; [reflexivity | exact Hc].
Qed.

Lemma eval_model_start (model : qnet C) (e : env_t C) (g : rng_t C)
  (log : list env_call) (max_steps seed : Z) :
  eval_model model e g log max_steps seed
  = eval_loop model (Z.to_nat max_steps) (fst (env_reset C e seed)) g
      (CallReset seed :: log) (snd (env_reset C e seed)) 0.
Proof.
  unfold eval_model. destruct (env_reset C e seed) as [e0 s0]. reflexivity.
Qed.

Lemma begin_episode_start (st : state) :
  env_reset C (env st) (env_seed C hp)
  = (env (begin_episode hp st), s (begin_episode hp st)).
Proof.
  unfold begin_episode.
  destruct (env_reset C (env st) (env_seed C hp)) as [e s0]. reflexivity.
Qed.

(** C9.  The environment seed is the one number drawn from the seeded
    random source at startup.  Every training episode begins with one
    [reset] called with it, every evaluation episode begins with one
    [reset] called with it and makes no other, and every [reset] that the
    run has made was called with it.  [reset] with a seed being a function
    of that seed, the environment and the observation are the same at the
    start of every training episode, and every evaluation episode runs
    its steps from that same environment state and observation. *)
Theorem resets_share_one_seed :
  env_seed C hp = fst (np_randint C (seed_all C (SEED hp)) 0 100) /\
  (forall (ph : phase) (st : state),
     reach hp ph st -> resets_use (env_seed C hp) (env_calls st)) /\
  (forall (fuel : nat) (st : state),
     main C hp fuel = Some (inr st) ->
     resets_use (env_seed C hp) (env_calls st)) /\
  ((forall (e e' : env_t C) (z : Z), env_reset C e z = env_reset C e' z) ->
   forall st1 st2 : state,
     env (begin_episode hp st1) = env (begin_episode hp st2) /\
     s (begin_episode hp st1) = s (begin_episode hp st2) /\
     env_reset C (env st1) (env_seed C hp)
     = (env (begin_episode hp st2), s (begin_episode hp st2))) /\
  (forall st : state,
     env_calls (begin_episode hp st)
     = CallReset (env_seed C hp) :: env_calls st) /\
  (forall st : state,
     exists steps,
       env_calls (evaluate hp st)
       = steps ++ CallReset (env_seed C hp) :: env_calls st /\
       count_resets steps = O) /\
  ((forall (e e' : env_t C) (z : Z), env_reset C e z = env_reset C e' z) ->
   forall st st2 : state,
     eval_model (online_qnet st) (env st) (rng st) (env_calls st)
       (N_STEPS hp) (env_seed C hp)
     = eval_loop (online_qnet st) (Z.to_nat (N_STEPS hp))
         (env (begin_episode hp st2)) (rng st)
         (CallReset (env_seed C hp) :: env_calls st)
         (s (begin_episode hp st2)) 0).
Proof.
  split; [reflexivity |]. split; [exact (reach_resets C hp) |]. split.
  - intros fuel st H. apply (reach_resets C hp Outside).
    apply (main_loop_reach C hp fuel (init_state C hp) st);
      [apply reach_init | exact H].
  - split; [| split; [| split]].
    + intros Hseed st1 st2.
      pose proof (begin_episode_start st1) as E1.
      pose proof (begin_episode_start st2) as E2.
      rewrite (Hseed (env st1) (env st2)) in E1.
      rewrite E2 in E1. inversion E1 as [[A B]].
      rewrite (Hseed (env st1) (env st2)), E2.
      repeat split; congruence.
    + intros st. apply (begin_episode_fields C hp st).
    + exact evaluate_log.
    + intros Hseed st st2. rewrite eval_model_start.
      rewrite (Hseed (env st) (env st2)), begin_episode_start.
      reflexivity.
Qed.

End SeedFacts.

Lemma resets_share_one_seed_witness :
  reach toy_hp Outside final_state /\
  resets_use (env_seed quiet toy_hp) (env_calls final_state) /\
  (forall (e e' : env_t quiet) (z : Z),
     env_reset quiet e z = env_reset quiet e' z) /\
  env (begin_episode toy_hp final_state) = env first_step /\
  s (begin_episode toy_hp final_state) = s first_step /\
  eval_model (online_qnet final_state) (env final_state) (rng final_state)
    (env_calls final_state) (N_STEPS toy_hp) (env_seed quiet toy_hp)
  = eval_loop (online_qnet final_state) (Z.to_nat (N_STEPS toy_hp))
      (env first_step) (rng final_state)
      (CallReset (env_seed quiet toy_hp) :: env_calls final_state)
      (s first_step) 0.
Proof.
  pose proof final_state_reach as R.
  assert (Hseed : forall (e e' : env_t quiet) (z : Z),
            env_reset quiet e z = env_reset quiet e' z)
    by (intros; reflexivity).
  destruct (resets_share_one_seed quiet toy_hp)
    as (_ & A & _ & B & _ & _ & D).
  split; [exact R |]. split; [exact (A Outside final_state R) |].
  split; [exact Hseed |].
  destruct (B Hseed final_state (init_state quiet toy_hp)) as (B1 & B2 & _).
  split; [exact B1 |]. split; [exact B2 |].
  exact (D Hseed final_state (init_state quiet toy_hp)).
Defined.
